(** * node-hbase-client: lib/connection.js

    A shallow embedding of the RPC connection of node-hbase-client: the
    [Call] object (one pending invocation with its single-shot 'done'
    notification and its deadline timer), the [Connection] with its
    table of calls, the request frame written by [sendParam], the
    response dispatch of [_nextResponse] and the draining of the table
    on socket 'close' and 'error'.

    Conventions.
    - JavaScript numbers that the code uses as integers are [Z]; where
      the code writes them on the wire as 32-bit integers the
      wrap-around is written out with [Z.land] and [Z.shiftr].
    - Bytes are [Z] values in [0, 255]; buffers are [list Z].
    - Objects that are shared by reference (the [Call] objects, which
      are reachable from the table, from their timer and from the
      caller) live in a heap indexed by allocation order; the table
      [this.calls] maps a key to an object reference.
    - An event emitter is modelled by the list of what it has emitted:
      listeners are the callers' code, which is outside this file. *)

From Stdlib Require Import ZArith Lia List Ascii String DecimalString.
From stdpp Require Import gmap strings list fin_maps sorting.

Open Scope Z_scope.

(** ** Values, errors and invocations *)

(** A decoded value of the generic codec ([HbaseObjectWritable]). *)
Inductive Value :=
  | VNull
  | VString (s : string)
  | VLong (n : Z)
  | VBytes (b : list Z).

(** [new Invocation(method, parameters)]. *)
Record Invocation := mkInvocation {
  methodName : string;
  parameters : list Value
}.

(** The address given by [remoteId.getAddress()]. *)
Record Address := mkAddress {
  host : string;
  port : Z
}.

(** Decimal rendering of a JavaScript integer in a string concatenation. *)
Definition string_of_Z (z : Z) : string :=
  NilZero.string_of_int (Z.to_int z).

(** The error objects handed to [setException].
    - [RemoteCallTimeoutException msg]: built by [_handleTimeoutit];
    - [ConnectionClosedException msg]: built by [_handleClose];
    - [RemoteException cls msg]: built by [_nextResponse];
    - [TransportError msg]: an error object coming from the socket or
      from the input stream. *)
Inductive Err :=
  | RemoteCallTimeoutException (msg : string)
  | ConnectionClosedException (msg : string)
  | RemoteException (cls : string) (msg : string)
  | TransportError (msg : string).

Definition is_timeout_error (e : Err) : bool :=
  match e with
  | RemoteCallTimeoutException _ => true
  | _ => false
  end.

(** The state of a timer created by [setTimeout]. *)
Inductive Timer :=
  | Pending      (* armed, not fired yet *)
  | Cleared      (* cancelled by clearTimeout *)
  | Expired.     (* its callback has been run *)

(** [clearTimeout(t)]: cancels a pending timer, does nothing otherwise. *)
Definition clearTimeout (t : Timer) : Timer :=
  match t with
  | Pending => Cleared
  | Cleared => Cleared
  | Expired => Expired
  end.

(** ** The Call object *)

Module Call.

(** One ['done'] notification: the arguments [(error, value)]. *)
Definition Notification : Type := option Err * option Value.

Record t := mk {
  id : Z;                       (* this.id *)
  param : Invocation;           (* this.param *)
  value : option Value;         (* this.value, null if error *)
  error : option Err;           (* this.error, null if value *)
  done : bool;                  (* this.done *)
  startTime : Z;                (* this.startTime *)
  timeout : Z;                  (* this.timeout *)
  timer : option Timer;         (* this.timer, undefined when not started *)
  emitted : list Notification   (* what emit('done', ...) has delivered *)
}.

Definition set_value (v : option Value) (c : t) : t :=
  mk (id c) (param c) v (error c) (done c) (startTime c) (timeout c)
     (timer c) (emitted c).

Definition set_error (e : option Err) (c : t) : t :=
  mk (id c) (param c) (value c) e (done c) (startTime c) (timeout c)
     (timer c) (emitted c).

Definition set_done (b : bool) (c : t) : t :=
  mk (id c) (param c) (value c) (error c) b (startTime c) (timeout c)
     (timer c) (emitted c).

Definition set_timer (tm : option Timer) (c : t) : t :=
  mk (id c) (param c) (value c) (error c) (done c) (startTime c) (timeout c)
     tm (emitted c).

(** [this.emit('done', error, value)]. *)
Definition emit_done (e : option Err) (v : option Value) (c : t) : t :=
  mk (id c) (param c) (value c) (error c) (done c) (startTime c) (timeout c)
     (timer c) (emitted c ++ [(e, v)]).

(** The body of [function Call(param, timeout)], given the identity
    taken from [Call_Counter] and the clock reading of [Date.now()]. *)
Definition create (ident : Z) (p : Invocation) (tmo : Z) (now : Z) : t :=
  mk ident p None None false now tmo
     (if 0 <? tmo then Some Pending else None) [].

(** [Call.prototype.callComplete]. *)
Definition callComplete (c : t) : t :=
  let c := set_timer (clearTimeout <$> timer c) c in
  if done c then c
  else
    let c := set_done true c in
    emit_done (error c) (value c) c.

(** [Call.prototype.setException]. *)
Definition setException (err : Err) (c : t) : t :=
  callComplete (set_error (Some err) c).

(** [Call.prototype.setValue]. *)
Definition setValue (v : Value) (c : t) : t :=
  callComplete (set_value (Some v) c).

(** [Call.prototype._handleTimeoutit]. *)
Definition _handleTimeoutit (c : t) : t :=
  setException
    (RemoteCallTimeoutException (string_of_Z (timeout c) ++ " ms timeout")) c.

(** [Call.prototype.getStartTime]. *)
Definition getStartTime (c : t) : Z := startTime c.

(** The runtime running the callback of the timer: only a pending
    timer fires, and it fires once. *)
Definition fire (c : t) : t :=
  match timer c with
  | Some Pending => _handleTimeoutit (set_timer (Some Expired) c)
  | _ => c
  end.

(** Is the deadline timer still armed? *)
Definition timer_active (c : t) : bool :=
  match timer c with
  | Some Pending => true
  | _ => false
  end.

(** The three ways in which a Call is completed. *)
Inductive Completion :=
  | Response (v : Value)        (* setValue: a response was delivered *)
  | Failure (e : Err)           (* setException: response error or drain *)
  | Deadline.                   (* _handleTimeoutit: the timer fired *)

Definition complete (k : Completion) (c : t) : t :=
  match k with
  | Response v => setValue v c
  | Failure e => setException e c
  | Deadline => _handleTimeoutit c
  end.

Definition completes (ks : list Completion) (c : t) : t :=
  foldl (fun c k => complete k c) c ks.

(** What the object looks like between its construction and its
    completion, and after it: no method changes a field without
    completing the call. *)
Definition wf (c : t) : Prop :=
  if done c then length (emitted c) = 1%nat
  else value c = None ∧ error c = None ∧ emitted c = [].

End Call.

(** ** Wire primitives *)

(** Byte [k] (0 is the least significant) of the 32-bit two's complement
    representation of [v]. *)
Definition byte_of (v : Z) (k : Z) : Z := Z.land (Z.shiftr v (8 * k)) 255.

(** The four bytes of a 32-bit integer, most significant first. *)
Definition int_bytes (v : Z) : list Z :=
  [byte_of v 3; byte_of v 2; byte_of v 1; byte_of v 0].

(** The signed 32-bit integer held by four big-endian bytes. *)
Definition int_of_bytes (b3 b2 b1 b0 : Z) : Z :=
  let u := b3 * 2 ^ 24 + b2 * 2 ^ 16 + b1 * 2 ^ 8 + b0 in
  if u <? 2 ^ 31 then u else u - 2 ^ 32.

(** Modelled from the spec: lib/data_output_buffer.js is not among the
    sources; the wire format is binary and big-endian, and [writeInt]
    appends the four bytes of a 32-bit integer. *)
Module DataOutputBuffer.
Definition t : Type := list Z.
Definition create : t := [].
Definition writeInt (v : Z) (d : t) : t := d ++ int_bytes v.
Definition write (bytes : list Z) (d : t) : t := d ++ bytes.
Definition getData (d : t) : list Z := d.
Definition getLength (d : t) : Z := Z.of_nat (length d).
End DataOutputBuffer.

(** Modelled from the spec: lib/util/bytes.js is not among the sources;
    [Bytes.putInt(data, offset, v)] overwrites four bytes of [data]
    with the big-endian bytes of [v]. [sendParam] only calls it at
    offset 0 of a buffer that already holds eight bytes, where the
    write is in range. *)
Definition Bytes_putInt (data : list Z) (offset : Z) (v : Z) : list Z :=
  list_inserts (Z.to_nat offset) (int_bytes v) data.

(** The collaborators of lib/connection.js that are not among the
    sources, taken as parameters: the flag-bit helper
    ([ResponseFlag]), the reads of a [DataInputBuffer] (each returns the
    value read and the rest of the buffer, or [None] when it throws),
    the generic value codec and the serialization of an invocation. *)
Class Codec := {
  ResponseFlag_isError : Z → bool;
  ResponseFlag_isLength : Z → bool;
  io_readInt : list Z → option (Z * list Z);
  io_readString : list Z → option (string * list Z);
  HbaseObjectWritable_readFields : list Z → option (Value * list Z);
  Invocation_write : Invocation → list Z
}.

(** ** The process: module-level state, Call objects, one Connection *)

Record World := mkWorld {
  Call_Counter : Z;           (* var Call_Counter *)
  allocated : N;              (* number of Call objects created so far *)
  objects : gmap N Call.t;    (* the Call objects, by reference *)
  calls : gmap Z N;           (* this.calls: key -> Call object *)
  closed : bool;              (* this.closed, undefined read as false *)
  rpcTimeout : Z;             (* this.rpcTimeout *)
  address : Address;          (* this.remoteId.getAddress() *)
  written : list Z;           (* bytes handed to this.out.write *)
  ended : bool;               (* this.socket.end() has been called *)
  reading : bool;             (* a read of the next response is registered *)
  events : list string        (* events emitted by the Connection *)
}.

Definition set_Call_Counter (n : Z) (w : World) : World :=
  mkWorld n (allocated w) (objects w) (calls w) (closed w) (rpcTimeout w)
          (address w) (written w) (ended w) (reading w) (events w).

Definition set_allocated (n : N) (w : World) : World :=
  mkWorld (Call_Counter w) n (objects w) (calls w) (closed w) (rpcTimeout w)
          (address w) (written w) (ended w) (reading w) (events w).

Definition set_objects (h : gmap N Call.t) (w : World) : World :=
  mkWorld (Call_Counter w) (allocated w) h (calls w) (closed w) (rpcTimeout w)
          (address w) (written w) (ended w) (reading w) (events w).

Definition set_calls (m : gmap Z N) (w : World) : World :=
  mkWorld (Call_Counter w) (allocated w) (objects w) m (closed w) (rpcTimeout w)
          (address w) (written w) (ended w) (reading w) (events w).

Definition set_closed (b : bool) (w : World) : World :=
  mkWorld (Call_Counter w) (allocated w) (objects w) (calls w) b (rpcTimeout w)
          (address w) (written w) (ended w) (reading w) (events w).

Definition set_written (bs : list Z) (w : World) : World :=
  mkWorld (Call_Counter w) (allocated w) (objects w) (calls w) (closed w)
          (rpcTimeout w) (address w) bs (ended w) (reading w) (events w).

Definition set_ended (b : bool) (w : World) : World :=
  mkWorld (Call_Counter w) (allocated w) (objects w) (calls w) (closed w)
          (rpcTimeout w) (address w) (written w) b (reading w) (events w).

Definition set_reading (b : bool) (w : World) : World :=
  mkWorld (Call_Counter w) (allocated w) (objects w) (calls w) (closed w)
          (rpcTimeout w) (address w) (written w) (ended w) b (events w).

Definition set_events (es : list string) (w : World) : World :=
  mkWorld (Call_Counter w) (allocated w) (objects w) (calls w) (closed w)
          (rpcTimeout w) (address w) (written w) (ended w) (reading w) es.

(** [a || b] on numbers: [a] unless it is missing or zero. *)
Definition js_or (a : option Z) (b : Z) : Z :=
  match a with
  | Some x => if x =? 0 then b else x
  | None => b
  end.

(** [n++] on a JavaScript number that holds a non-negative integer: the
    numbers are IEEE doubles, exact up to [2^53], where [n + 1] rounds
    back to [n]. *)
Definition js_succ (n : Z) : Z := if n <? 2 ^ 53 then n + 1 else n.

(** [remoteId]: the address and the optional per-connection timeout. *)
Record RemoteId := mkRemoteId {
  getAddress : Address;
  remote_rpcTimeout : option Z
}.

(** The state after [new Connection(remoteId)] in a fresh process. *)
Definition Connection (remoteId : RemoteId) : World :=
  mkWorld 0 0%N ∅ ∅ false (js_or (remote_rpcTimeout remoteId) 10000)
          (getAddress remoteId) [] false false [].

(** A method call on the Call object behind a reference. *)
Definition on_call (ref : N) (f : Call.t → Call.t) (w : World) : World :=
  set_objects (alter f ref (objects w)) w.

(** [this.emit(name)] on the Connection. *)
Definition emit (name : string) (w : World) : World :=
  set_events (events w ++ [name]) w.

(** The keys visited by [for (var id in calls)]: the keys of the table
    are the non-negative identities given by [Call_Counter], which a
    JavaScript object enumerates in ascending order. *)
Definition for_in (m : gmap Z N) : list Z :=
  merge_sort Z.le (map fst (map_to_list m)).

(** The loop of [_cleanupCalls] over the table that was swapped out. *)
Definition fail_each (err : Err) (old : gmap Z N) (ids : list Z) (w : World)
  : World :=
  foldl (fun w id =>
           match old !! id with
           | Some ref => on_call ref (Call.setException err) w
           | None => w
           end) w ids.

(** [Connection.prototype._cleanupCalls]. *)
Definition _cleanupCalls (err : Err) (w : World) : World :=
  let old := calls w in
  let w := set_calls ∅ w in       (* should reset calls before traverse it *)
  fail_each err old (for_in old) w.

Definition closed_message (a : Address) : string :=
  "socket " ++ host a ++ ":" ++ string_of_Z (port a) ++ " closed.".

(** [Connection.prototype._handleClose]. *)
Definition _handleClose (w : World) : World :=
  let w := set_closed true w in
  let msg := closed_message (address w) in
  let err := ConnectionClosedException msg in
  let w := _cleanupCalls err w in
  emit "close" w.

(** [Connection.prototype._handleError]. *)
Definition _handleError (err : Err) (w : World) : World :=
  _cleanupCalls err w.

(** [Connection.prototype._close]. *)
Definition _close (w : World) : World := set_ended true w.

(** [new Call(param, timeout)]: takes the identity from [Call_Counter],
    increments the counter and allocates the object. Returns the
    reference of the new object. *)
Definition new_Call (p : Invocation) (tmo : Z) (now : Z) (w : World)
  : N * World :=
  let ref := allocated w in
  let c := Call.create (Call_Counter w) p tmo now in
  let w := set_Call_Counter (js_succ (Call_Counter w)) w in
  let w := set_allocated (N.succ ref) w in
  (ref, set_objects (<[ref := c]> (objects w)) w).

(** The identity of the Call object behind a reference ([call.id]). *)
Definition id_of (ref : N) (w : World) : Z :=
  from_option Call.id 0 (objects w !! ref).

(** [Connection.prototype.addCall]. *)
Definition addCall (ref : N) (w : World) : World :=
  set_calls (<[id_of ref w := ref]> (calls w)) w.

(** ** Exceptions thrown inside a callback *)

Inductive JsError :=
  | TypeError (msg : string)   (* a property read on undefined *)
  | CodecError.                (* thrown by a read of the input buffer *)

Inductive Result (A : Type) :=
  | Ok (a : A)
  | Exn (e : JsError).
Arguments Ok {A} a.
Arguments Exn {A} e.

(** Code that updates the process state and may throw: the state at the
    point of the throw is kept, as an exception undoes nothing. *)
Definition M (A : Type) : Type := World → Result A * World.

Definition ret {A} (a : A) : M A := fun w => (Ok a, w).

Definition bind {A B} (m : M A) (k : A → M B) : M B :=
  fun w =>
    match m w with
    | (Ok a, w') => k a w'
    | (Exn e, w') => (Exn e, w')
    end.

Definition throw {A} (e : JsError) : M A := fun w => (Exn e, w).

Definition gets {A} (f : World → A) : M A := fun w => (Ok (f w), w).

Definition modify (f : World → World) : M unit := fun w => (Ok tt, f w).

#[global] Instance M_ret : MRet M := @ret.
#[global] Instance M_bind : MBind M := fun A B k m => bind m k.

(** A method call or property read on what a table lookup returned:
    on [undefined] it throws a TypeError. *)
Definition deref {A} (prop : string) (o : option A) : M A :=
  match o with
  | Some a => ret a
  | None => throw (TypeError ("Cannot read property '" ++ prop ++ "' of undefined"))
  end.

(** A read of the input buffer that may throw. *)
Definition reads {A} (r : option A) : M A :=
  match r with
  | Some a => ret a
  | None => throw CodecError
  end.

(** The fields read by [readFields] for one response: call id, flag
    byte, size. *)
Record Prefix := mkPrefix {
  prefix_id : Z;
  prefix_flag : Z;
  prefix_size : Z
}.

Section WithCodec.

Context `{codec : Codec}.

(** [call.param.write(d)]: the bytes that the invocation of the Call
    object behind a reference appends to the buffer. *)
Definition param_bytes (ref : N) (w : World) : list Z :=
  from_option (fun c => Invocation_write (Call.param c)) [] (objects w !! ref).

(** [Connection.prototype.sendParam]. *)
Definition sendParam (ref : N) (w : World) : World :=
  let d := DataOutputBuffer.create in
  let d := DataOutputBuffer.writeInt 0 d in       (* placeholder *)
  let d := DataOutputBuffer.writeInt (id_of ref w) d in
  let d := DataOutputBuffer.write (param_bytes ref w) d in
  let data := DataOutputBuffer.getData d in
  let dataLength := DataOutputBuffer.getLength d in
  let data := Bytes_putInt data 0 (dataLength - 4) in
  set_written (written w ++ take (Z.to_nat dataLength) data) w.

(** [Connection.prototype.call]; [timeout] is [None] when the caller
    gives no timeout (or gives the callback in its place). *)
Definition call (method : string) (params : list Value) (timeout : option Z)
           (now : Z) (w : World) : World :=
  let timeout := js_or timeout (rpcTimeout w) in
  let param := mkInvocation method params in
  let '(ref, w) := new_Call param timeout now w in
  let w := set_calls (<[id_of ref w := ref]> (calls w)) w in
  (* call.on('done', callback) *)
  if closed w then _handleClose w else sendParam ref w.

(** [Connection.prototype._nextResponse]: registers the read of the
    next response prefix. *)
Definition _nextResponse (w : World) : World := set_reading true w.

(** The callback that [_nextResponse] gives to [readFields], run with
    its arguments [(err, data)], and, on the path that reaches
    [readBytes], the callback given to it, run on the [buf] that the
    stream delivers for the requested [size] bytes. *)
Definition on_response (err : option Err) (data : option Prefix)
           (buf : list Z) : M unit :=
  let id := prefix_id <$> data in                  (* data && data.id *)
  d ← deref "size" data;
  let size := prefix_size d - 9 in
  call ← gets (fun w => id ≫= fun id => calls w !! id);
  modify (fun w => match id with
                   | Some id => set_calls (delete id (calls w)) w
                   | None => w
                   end);;
  match err with
  | Some e =>
      ref ← deref "setException" call;
      modify (on_call ref (Call.setException e));;
      modify _close
  | None =>
      let flag := prefix_flag d in
      let isError := ResponseFlag_isError flag in
      if negb (ResponseFlag_isLength flag) then
        let e := RemoteException "RemoteException"
                   ("missing data length packet, flag: " ++ string_of_Z flag) in
        ref ← deref "setException" call;
        modify (on_call ref (Call.setException e));;
        modify _close
      else
        (* self.in.readBytes(size, function (err, buf) ...) *)
        '(state, io) ← reads (io_readInt buf);
        if isError then
          '(cls, io) ← reads (io_readString io);
          '(msg, io) ← reads (io_readString io);
          let e := RemoteException cls msg in
          ref ← deref "setException" call;
          modify (on_call ref (Call.setException e));;
          modify _nextResponse
        else
          '(obj, io) ← reads (HbaseObjectWritable_readFields io);
          ref ← deref "id" call;                   (* call.id in debug(...) *)
          modify (on_call ref (Call.setValue obj));;
          modify _nextResponse
  end.

End WithCodec.

(** ** The events of a run *)

(** What the outside world does to the process: a caller invokes
    [call], the input stream runs the callback of [_nextResponse], the
    runtime fires the timer of a Call object, the socket reports
    'close' or 'error'. *)
Inductive Event :=
  | Invoke (method : string) (params : list Value) (timeout : option Z) (now : Z)
  | Receive (err : option string) (data : option Prefix) (buf : list Z)
  | TimerFires (ref : N)
  | SocketClose
  | SocketError (msg : string).

Section Run.

Context `{codec : Codec}.

Definition step (ev : Event) : M unit :=
  match ev with
  | Invoke method params timeout now => modify (call method params timeout now)
  | Receive err data buf =>
      modify (set_reading false);;     (* the registered read is used up *)
      on_response (TransportError <$> err) data buf
  | TimerFires ref => modify (on_call ref Call.fire)
  | SocketClose => modify _handleClose
  | SocketError msg => modify (_handleError (TransportError msg))
  end.

(** The events are handled one after the other; an exception that
    escapes a handler ends the run. *)
Fixpoint run (evs : list Event) : M unit :=
  match evs with
  | [] => ret tt
  | ev :: evs => step ev;; run evs
  end.

(** The state in which a run leaves the process. *)
Definition after (evs : list Event) (w : World) : World := (run evs w).2.

End Run.

(** ** One concrete choice of the collaborators *)

Definition string_of_bytes (bs : list Z) : string :=
  string_of_list_ascii (map (fun b => ascii_of_N (Z.to_N b)) bs).

Definition bytes_of_string (s : string) : list Z :=
  map (fun a => Z.of_N (N_of_ascii a)) (list_ascii_of_string s).

Definition sample_readInt (b : list Z) : option (Z * list Z) :=
  match b with
  | b3 :: b2 :: b1 :: b0 :: rest => Some (int_of_bytes b3 b2 b1 b0, rest)
  | _ => None
  end.

Definition sample_readString (b : list Z) : option (string * list Z) :=
  match b with
  | n :: rest =>
      if (Z.to_nat n <=? length rest)%nat
      then Some (string_of_bytes (take (Z.to_nat n) rest), drop (Z.to_nat n) rest)
      else None
  | [] => None
  end.

Definition sample_writeString (s : string) : list Z :=
  Z.of_nat (String.length s) :: bytes_of_string s.

Definition sample_readFields (b : list Z) : option (Value * list Z) :=
  match sample_readString b with
  | Some (s, rest) => Some (VString s, rest)
  | None => None
  end.

Definition sample_writeValue (v : Value) : list Z :=
  match v with
  | VNull => [0]
  | VString s => 1 :: sample_writeString s
  | VLong n => 2 :: int_bytes n
  | VBytes b => 3 :: Z.of_nat (length b) :: b
  end.

(** Modelled from the spec: lib/ipc/response_flag.js,
    lib/data_input_buffer.js, lib/io/hbase_object_writable.js and
    lib/ipc/invocation.js are not among the sources. This instance
    fixes one concrete choice for them, on which the model can be run:
    the error bit is bit 0 and the has-declared-length bit is bit 1 of
    the flag byte, integers are big-endian, a string is one length
    byte followed by its characters, and an invocation is its method
    name followed by its parameters. *)
#[local] Instance sample_codec : Codec := {|
  ResponseFlag_isError flag := Z.testbit flag 0;
  ResponseFlag_isLength flag := Z.testbit flag 1;
  io_readInt := sample_readInt;
  io_readString := sample_readString;
  HbaseObjectWritable_readFields := sample_readFields;
  Invocation_write inv :=
    sample_writeString (methodName inv) ++
    int_bytes (Z.of_nat (length (parameters inv))) ++
    concat (map sample_writeValue (parameters inv))
|}.

(** A connection to [localhost:60020] with the default timeout. *)
Definition sample_remote : RemoteId :=
  mkRemoteId (mkAddress "localhost" 60020) None.

(** The notification that a completion delivers when it is the first
    one to reach a Call created with timeout [tmo]. *)
Definition first_notification (k : Call.Completion) (tmo : Z)
  : Call.Notification :=
  match k with
  | Call.Response v => (None, Some v)
  | Call.Failure e => (Some e, None)
  | Call.Deadline =>
      (Some (RemoteCallTimeoutException (string_of_Z tmo ++ " ms timeout")), None)
  end.

(** Two calls issued on a fresh connection to [sample_remote]: the
    first with a timeout of 5 seconds, the second with the default. *)
Definition sample_world : World :=
  after [Invoke "echo" [] (Some 5000) 0; Invoke "get" [VString "row"] None 1]
        (Connection sample_remote).

(** ** Vocabulary of the properties *)

(** The two socket events that drain the table, the handler that each
    one runs and the error that the handler gives to the calls. *)
Inductive SocketFailure :=
  | OnClose
  | OnError (err : Err).

Definition handle (f : SocketFailure) (w : World) : World :=
  match f with
  | OnClose => _handleClose w
  | OnError err => _handleError err w
  end.

Definition failure_error (f : SocketFailure) (w : World) : Err :=
  match f with
  | OnClose => ConnectionClosedException (closed_message (address w))
  | OnError err => err
  end.

(** The state in which [_cleanupCalls] enters its loop, for each of
    the two handlers. *)
Definition before_cleanup (f : SocketFailure) (w : World) : World :=
  match f with
  | OnClose => set_closed true w
  | OnError _ => w
  end.

(** [_cleanupCalls] stopped after [n] iterations of its loop. *)
Definition cleanup_after (n : nat) (err : Err) (w : World) : World :=
  let old := calls w in
  let w := set_calls ∅ w in
  fail_each err old (take n (for_in old)) w.

(** One method call on a Call object, as the handlers of the
    Connection and the runtime make them: a value, an error that is not
    a deadline error, or the timer firing. *)
Inductive method_step : Call.t → Call.t → Prop :=
  | step_setValue v c : method_step c (Call.setValue v c)
  | step_setException e c :
      is_timeout_error e = false → method_step c (Call.setException e c)
  | step_fire c : method_step c (Call.fire c).

(** [w'] has the Call objects of [w], each after some method calls, and
    no new one. *)
Definition same_calls (w w' : World) : Prop :=
  Call_Counter w' = Call_Counter w
  ∧ allocated w' = allocated w
  ∧ ∀ l, option_Forall2 (rtc method_step) (objects w !! l) (objects w' !! l).

(** The notifications of a Call that carry a deadline error. *)
Definition timed_out (c : Call.t) : Prop :=
  ∃ e v, (Some e, v) ∈ Call.emitted c ∧ is_timeout_error e = true.

(** The effective timeout of [call]: the argument, or the default of
    the connection when the argument is missing or zero. *)
Definition effective_timeout (timeout : option Z) (w : World) : Z :=
  js_or timeout (rpcTimeout w).

(** The state of [call] once the new Call is created and registered
    under its identity, before the closed flag is tested. *)
Definition registered (method : string) (params : list Value)
           (timeout : option Z) (now : Z) (w : World) : World :=
  let ref := allocated w in
  let c := Call.create (Call_Counter w) (mkInvocation method params)
             (effective_timeout timeout w) now in
  set_calls (<[Call_Counter w := ref]> (calls w))
    (set_objects (<[ref := c]> (objects w))
       (set_allocated (N.succ ref)
          (set_Call_Counter (js_succ (Call_Counter w)) w))).

(** The Call objects are numbered in the order of their creation, and
    the identity of each is its number, up to the point where the
    counter stops growing. *)
Definition ids_in_order (w : World) : Prop :=
  Call_Counter w = Z.min (Z.of_N (allocated w)) (2 ^ 53)
  ∧ (∀ l, (l < allocated w)%N → is_Some (objects w !! l))
  ∧ (∀ l c, objects w !! l = Some c →
            (l < allocated w)%N ∧ Call.id c = Z.min (Z.of_N l) (2 ^ 53)).

(** A Call without a deadline: no timer, and no deadline error stored
    or delivered. *)
Definition no_deadline (c : Call.t) : Prop :=
  Call.timer c = None
  ∧ (∀ e, Call.error c = Some e → is_timeout_error e = false)
  ∧ (∀ e v, (Some e, v) ∈ Call.emitted c → is_timeout_error e = false).

(** Every Call object is as the constructor and the methods leave it. *)
Definition calls_wf (w : World) : Prop :=
  ∀ l c, objects w !! l = Some c → Call.wf c.

(** The Call object behind the reference [l] exists and has no deadline. *)
Definition no_deadline_at (l : N) (w : World) : Prop :=
  (l < allocated w)%N ∧ ∃ c, objects w !! l = Some c ∧ no_deadline c.

(** ** The handshake and the convenience operations *)

(** [new Buffer("hrpc", "utf8")]. *)
Definition HEADER : list Z := [104; 114; 112; 99].

Definition CURRENT_VERSION : Z := 3.

Definition PING_CALL_ID : Z := -1.

(** [a || b] on strings: [a] unless it is missing or empty. *)
Definition str_or (a : option string) (b : string) : string :=
  match a with
  | Some s => if String.eqb s "" then b else s
  | None => b
  end.

(** [new ConnectionHeader(protocol, user)]. *)
Record ConnectionHeader := mkConnectionHeader {
  protocol : option string;     (* this.protocol *)
  user : option string          (* this.user, the ticket *)
}.

(** [ConnectionHeader.prototype.getProtocol]. *)
Definition getProtocol (h : ConnectionHeader) : option string := protocol h.

(** [ConnectionHeader.prototype.getUser]: always [null]. *)
Definition getUser (h : ConnectionHeader) : option string := None.

(** The header that the constructor of the Connection builds from
    [remoteId.getProtocol()], the default [HConstants.PROTOCOL] and the
    ticket. *)
Definition Connection_header (remote_protocol : option string)
           (HConstants_PROTOCOL : string) (ticket : option string)
  : ConnectionHeader :=
  mkConnectionHeader (Some (str_or remote_protocol HConstants_PROTOCOL)) ticket.

(** Modelled from the spec: lib/data_output_stream.js is not among the
    sources; [this.out.write] hands bytes to the socket, [writeByte]
    one byte and [writeInt] the four big-endian bytes of a 32-bit
    integer. *)
Definition out_write (bytes : list Z) (w : World) : World :=
  set_written (written w ++ bytes) w.

Definition out_writeByte (v : Z) (w : World) : World :=
  out_write [Z.land v 255] w.

Definition out_writeInt (v : Z) (w : World) : World :=
  out_write (int_bytes v) w.

Section Handshake.

(** [Text.writeString(out, s)] of lib/text.js, which is not among the
    sources: the bytes that it appends for the string [s]. *)
Variable Text_writeString : string → list Z.

(** [ConnectionHeader.prototype.write]. *)
Definition ConnectionHeader_write (h : ConnectionHeader)
           (out : DataOutputBuffer.t) : DataOutputBuffer.t :=
  DataOutputBuffer.write (Text_writeString (str_or (protocol h) "")) out.

(** [Connection.prototype.writeHeader], for the header [this.header]. *)
Definition writeHeader (h : ConnectionHeader) (w : World) : World :=
  let w := out_write HEADER w in
  let w := out_writeByte CURRENT_VERSION w in
  let buf := ConnectionHeader_write h DataOutputBuffer.create in
  let bufLen := DataOutputBuffer.getLength buf in
  let w := out_writeInt bufLen w in
  out_write (DataOutputBuffer.getData buf) w.

(** The handler of the socket's 'connect' event, registered by
    [setupIOstreams]. *)
Definition on_connect (h : ConnectionHeader) (w : World) : World :=
  let w := writeHeader h w in
  let w := set_reading true w in        (* self._nextResponse() *)
  emit "connect" w.

End Handshake.

Section Wrappers.

Context `{codec : Codec}.

(** [Connection.prototype.getClosestRowBefore]. *)
Definition getClosestRowBefore (regionName row family : Value)
           (rpcTimeout : option Z) (now : Z) (w : World) : World :=
  call "getClosestRowBefore" [regionName; row; family] rpcTimeout now w.

(** [Connection.prototype.get]: the callback takes the place of the
    timeout, so that [call] sees no timeout. *)
Definition get (regionName g : Value) (now : Z) (w : World) : World :=
  call "get" [regionName; g] None now w.

(** [Connection.prototype.put]. *)
Definition put (regionName p : Value) (now : Z) (w : World) : World :=
  call "put" [regionName; p] None now w.

End Wrappers.

(** ** Vocabulary of the further properties *)

(** The keys of the table are the identities of the Call objects that
    they denote, and these objects exist. *)
Definition table_ok (w : World) : Prop :=
  ∀ id l, calls w !! id = Some l →
          (l < allocated w)%N ∧ ∃ c, objects w !! l = Some c ∧ Call.id c = id.

(** A Call whose timer is armed is outstanding: once a Call is done
    its timer is not armed any more. *)
Definition timers_ok (w : World) : Prop :=
  ∀ l c, objects w !! l = Some c → Call.done c = true →
         Call.timer_active c = false.

(** Every outstanding Call is in the table, under its identity. *)
Definition tracked (w : World) : Prop :=
  ∀ l c, objects w !! l = Some c → Call.done c = false →
         calls w !! Call.id c = Some l.

(** The state on which the handlers of an event work: for a call, the
    state with the new Call registered. *)
Definition entered (ev : Event) (w : World) : World :=
  match ev with
  | Invoke method params timeout now => registered method params timeout now w
  | _ => w
  end.

(** ** The identities that the constructor gives *)

(** The identity that the constructor gives to the Call that [call]
    creates in the state [w] ([this.id = Call_Counter++]): the [id] of
    the object that [new Call(param, rpcTimeout)] returns. *)
Definition constructed_id (method : string) (params : list Value)
           (timeout : option Z) (now : Z) (w : World) : Z :=
  let '(ref, w1) :=
    new_Call (mkInvocation method params) (js_or timeout (rpcTimeout w)) now w in
  id_of ref w1.

Definition is_Invoke (ev : Event) : bool :=
  match ev with
  | Invoke _ _ _ _ => true
  | _ => false
  end.

(** The number of calls that the callers issue in a list of events. *)
Definition invocations (evs : list Event) : nat :=
  length (filter (fun ev => is_Invoke ev = true) evs).

Section Identities.

Context `{codec : Codec}.

(** The identities given by the constructor along a run, in the order
    in which the Calls are constructed: one for each call that the run
    gets to. *)
Fixpoint identities (evs : list Event) (w : World) : list Z :=
  match evs with
  | [] => []
  | ev :: evs =>
      let ids :=
        match ev with
        | Invoke method params timeout now =>
            [constructed_id method params timeout now w]
        | _ => []
        end in
      match step ev w with
      | (Ok _, w') => ids ++ identities evs w'
      | (Exn _, _) => ids
      end
  end.

End Identities.

(** ** The two callbacks of the dispatch loop, apart *)

(** What the callback given to [readBytes] keeps of the callback of
    [readFields] that registers it: the Call that was looked up, or
    undefined, and [isError]. *)
Record Awaited := mkAwaited {
  awaited_call : option N;
  awaited_isError : bool
}.

(** The process with its dispatch loop: the state, and the callback of
    [readBytes] when one is registered. *)
Record Process := mkProcess {
  world : World;
  awaiting : option Awaited
}.

(** What happens to the process, with the two reads of a response
    apart: between the callback of [readFields] and the callback of
    [readBytes] the other handlers may run. *)
Inductive Occurrence :=
  | Calls (method : string) (params : list Value) (timeout : option Z) (now : Z)
  | PrefixRead (err : option string) (data : option Prefix)
  | PayloadRead (buf : list Z)
  | TimerFired (ref : N)
  | SocketClosed
  | SocketFailed (msg : string).

Section Callbacks.

Context `{codec : Codec}.

(** The callback that [_nextResponse] gives to [readFields], up to its
    call of [self.in.readBytes]: it returns what the callback of
    [readBytes] will work on, or [None] when it has returned before
    registering it. *)
Definition on_prefix (err : option Err) (data : option Prefix)
  : M (option Awaited) :=
  let id := prefix_id <$> data in                  (* data && data.id *)
  d ← deref "size" data;
  let size := prefix_size d - 9 in
  call ← gets (fun w => id ≫= fun id => calls w !! id);
  modify (fun w => match id with
                   | Some id => set_calls (delete id (calls w)) w
                   | None => w
                   end);;
  match err with
  | Some e =>
      ref ← deref "setException" call;
      modify (on_call ref (Call.setException e));;
      modify _close;;
      mret None
  | None =>
      let flag := prefix_flag d in
      let isError := ResponseFlag_isError flag in
      if negb (ResponseFlag_isLength flag) then
        let e := RemoteException "RemoteException"
                   ("missing data length packet, flag: " ++ string_of_Z flag) in
        ref ← deref "setException" call;
        modify (on_call ref (Call.setException e));;
        modify _close;;
        mret None
      else
        (* self.in.readBytes(size, function (err, buf) ...) *)
        mret (Some (mkAwaited call isError))
  end.

(** The callback given to [readBytes], run on the [buf] that the
    stream delivers. *)
Definition on_payload (a : Awaited) (buf : list Z) : M unit :=
  '(state, io) ← reads (io_readInt buf);
  if awaited_isError a then
    '(cls, io) ← reads (io_readString io);
    '(msg, io) ← reads (io_readString io);
    let e := RemoteException cls msg in
    ref ← deref "setException" (awaited_call a);
    modify (on_call ref (Call.setException e));;
    modify _nextResponse
  else
    '(obj, io) ← reads (HbaseObjectWritable_readFields io);
    ref ← deref "id" (awaited_call a);               (* call.id in debug(...) *)
    modify (on_call ref (Call.setValue obj));;
    modify _nextResponse.

(** A handler of the Connection, run in the process. *)
Definition in_process (m : M unit) (p : Process) : Result unit * Process :=
  let '(r, w) := m (world p) in
  (r, mkProcess w (awaiting p)).

(** One occurrence. The callback of [readFields] runs only when no
    callback of [readBytes] is registered, and the callback of
    [readBytes] when one is: the loop has one read under way at a
    time. *)
Definition occur (o : Occurrence) (p : Process) : Result unit * Process :=
  match o with
  | Calls method params timeout now =>
      in_process (step (Invoke method params timeout now)) p
  | PrefixRead err data =>
      match awaiting p with
      | None =>
          match (modify (set_reading false);;
                 on_prefix (TransportError <$> err) data) (world p) with
          | (Ok a, w) => (Ok tt, mkProcess w a)
          | (Exn e, w) => (Exn e, mkProcess w None)
          end
      | Some _ => (Ok tt, p)
      end
  | PayloadRead buf =>
      match awaiting p with
      | Some a =>
          let '(r, w) := on_payload a buf (world p) in
          (r, mkProcess w None)
      | None => (Ok tt, p)
      end
  | TimerFired ref => in_process (step (TimerFires ref)) p
  | SocketClosed => in_process (step SocketClose) p
  | SocketFailed msg => in_process (step (SocketError msg)) p
  end.

(** The occurrences are handled one after the other; an exception that
    escapes a handler ends the run. *)
Fixpoint proceed (os : list Occurrence) (p : Process) : Result unit * Process :=
  match os with
  | [] => (Ok tt, p)
  | o :: os =>
      match occur o p with
      | (Ok _, p') => proceed os p'
      | (Exn e, p') => (Exn e, p')
      end
  end.

End Callbacks.

(** Every outstanding Call is in the table under its identity, or is
    the Call that the registered callback of [readBytes] holds. *)
Definition accounted (p : Process) : Prop :=
  ∀ l c, objects (world p) !! l = Some c → Call.done c = false →
         calls (world p) !! Call.id c = Some l
         ∨ ∃ a, awaiting p = Some a ∧ awaited_call a = Some l.

(** The state on which the handlers of an occurrence work. *)
Definition entered_process (o : Occurrence) (w : World) : World :=
  match o with
  | Calls method params timeout now => registered method params timeout now w
  | _ => w
  end.

(** * Properties *)

(** ** The Call object: single-shot completion *)

Section CallFacts.

Implicit Types (c : Call.t) (e : Err) (v : Value).

Lemma callComplete_pending c :
  Call.done c = false →
  Call.callComplete c =
    Call.mk (Call.id c) (Call.param c) (Call.value c) (Call.error c) true
            (Call.startTime c) (Call.timeout c) (clearTimeout <$> Call.timer c)
            (Call.emitted c ++ [(Call.error c, Call.value c)]).
Proof. destruct c; simpl; intros ->; reflexivity. Qed.

Lemma callComplete_done c :
  Call.done c = true →
  Call.callComplete c =
    Call.mk (Call.id c) (Call.param c) (Call.value c) (Call.error c) true
            (Call.startTime c) (Call.timeout c) (clearTimeout <$> Call.timer c)
            (Call.emitted c).
Proof. destruct c; simpl; intros ->; reflexivity. Qed.

Lemma callComplete_is_done c : Call.done (Call.callComplete c) = true.
Proof. destruct c as [? ? ? ? [] ? ? ? ?]; reflexivity. Qed.

Lemma callComplete_timer c :
  Call.timer (Call.callComplete c) = clearTimeout <$> Call.timer c.
Proof. destruct c as [? ? ? ? [] ? ? ? ?]; reflexivity. Qed.

Lemma callComplete_inactive c : Call.timer_active (Call.callComplete c) = false.
Proof.
  unfold Call.timer_active. rewrite callComplete_timer.
  destruct (Call.timer c) as [[]|]; reflexivity.
Qed.

(** Every completion leaves the Call done with its timer disarmed. *)
Lemma complete_is_done k c : Call.done (Call.complete k c) = true.
Proof. destruct k; apply callComplete_is_done. Qed.

Lemma complete_inactive k c : Call.timer_active (Call.complete k c) = false.
Proof. destruct k; apply callComplete_inactive. Qed.

(** On a Call that is done, a completion emits nothing. *)
Lemma complete_done_emitted k c :
  Call.done c = true → Call.emitted (Call.complete k c) = Call.emitted c.
Proof.
  intros Hd. destruct k; simpl;
    unfold Call._handleTimeoutit, Call.setValue, Call.setException;
    rewrite callComplete_done by (destruct c; exact Hd); destruct c; reflexivity.
Qed.

Lemma completes_done_emitted ks c :
  Call.done c = true →
  Call.emitted (Call.completes ks c) = Call.emitted c
  ∧ Call.done (Call.completes ks c) = true
  ∧ (Call.timer_active c = false →
     Call.timer_active (Call.completes ks c) = false).
Proof.
  revert c. induction ks as [|k ks IH]; intros c Hd; [by simpl|].
  change (Call.completes (k :: ks) c) with (Call.completes ks (Call.complete k c)).
  destruct (IH (Call.complete k c) (complete_is_done k c)) as (He & Hd' & Ht).
  rewrite He, Hd', complete_done_emitted by done.
  split_and!; [done..|]. intros _. apply Ht, complete_inactive.
Qed.

Lemma complete_create_emitted k ident p tmo now :
  Call.emitted (Call.complete k (Call.create ident p tmo now))
  = [first_notification k tmo].
Proof. destruct k; reflexivity. Qed.

(** Completing twice with the same error is completing once. *)
Lemma setException_idemp e c :
  Call.setException e (Call.setException e c) = Call.setException e c.
Proof. destruct c as [? ? ? ? [] ? ? [[]|] ?]; reflexivity. Qed.

Lemma setException_id e c : Call.id (Call.setException e c) = Call.id c.
Proof. destruct c as [? ? ? ? [] ? ? ? ?]; reflexivity. Qed.

Lemma setValue_id v c : Call.id (Call.setValue v c) = Call.id c.
Proof. destruct c as [? ? ? ? [] ? ? ? ?]; reflexivity. Qed.

Lemma fire_id c : Call.id (Call.fire c) = Call.id c.
Proof. destruct c as [? ? ? ? [] ? ? [[]|] ?]; reflexivity. Qed.

Lemma setException_param e c : Call.param (Call.setException e c) = Call.param c.
Proof. destruct c as [? ? ? ? [] ? ? ? ?]; reflexivity. Qed.

(** What [setException] does to a Call that is still outstanding. *)
Lemma setException_outstanding e c :
  Call.done c = false → Call.wf c →
  Call.emitted (Call.setException e c) = [(Some e, None)]
  ∧ Call.done (Call.setException e c) = true
  ∧ Call.error (Call.setException e c) = Some e
  ∧ Call.value (Call.setException e c) = None
  ∧ Call.timer_active (Call.setException e c) = false.
Proof.
  unfold Call.wf. intros Hd. rewrite Hd. intros (Hv & _ & Hem).
  split_and!; [| apply callComplete_is_done | | | apply callComplete_inactive];
    destruct c; simpl in *; subst; reflexivity.
Qed.

(** What [setValue] does to a Call that is still outstanding. *)
Lemma setValue_outstanding v c :
  Call.done c = false → Call.wf c →
  Call.emitted (Call.setValue v c) = [(None, Some v)]
  ∧ Call.done (Call.setValue v c) = true
  ∧ Call.timer_active (Call.setValue v c) = false.
Proof.
  unfold Call.wf. intros Hd. rewrite Hd. intros (_ & He & Hem).
  split_and!; [| apply callComplete_is_done | apply callComplete_inactive];
    destruct c; simpl in *; subst; reflexivity.
Qed.

(** The constructor establishes [Call.wf] and every method keeps it. *)
Lemma create_wf ident p tmo now : Call.wf (Call.create ident p tmo now).
Proof. unfold Call.wf; simpl; auto. Qed.

Lemma callComplete_wf_done c :
  (Call.done c = true → length (Call.emitted c) = 1%nat) →
  (Call.done c = false → Call.emitted c = []) →
  Call.wf (Call.callComplete c).
Proof.
  unfold Call.wf. rewrite callComplete_is_done.
  destruct c as [? ? ? ? [] ? ? ? ?]; simpl; intros H1 H2; [auto|].
  rewrite H2 by done. reflexivity.
Qed.

Lemma complete_wf k c : Call.wf c → Call.wf (Call.complete k c).
Proof.
  intros Hwf. destruct k; apply callComplete_wf_done;
    unfold Call.wf in Hwf; destruct c as [? ? ? ? [] ? ? ? ?]; simpl in *;
    intros; try done; tauto.
Qed.

Lemma fire_wf c : Call.wf c → Call.wf (Call.fire c).
Proof.
  intros Hwf. unfold Call.fire. destruct (Call.timer c) as [[]|]; try done.
  apply (complete_wf Call.Deadline).
  unfold Call.wf in *. destruct c; simpl in *. exact Hwf.
Qed.

(** C1. For every Call, as its constructor leaves it, and for every
    non-empty sequence of completions (a response delivered by
    [setValue], a failure delivered by [setException], the deadline
    handler [_handleTimeoutit]), in any number and in any order: the
    listeners of 'done' have received exactly one notification, the
    one of the first completion; the Call is done; and the deadline
    timer is no longer armed from the first completion on. *)
Theorem call_completes_exactly_once
    (ident : Z) (p : Invocation) (tmo now : Z)
    (k : Call.Completion) (ks : list Call.Completion) :
  let c := Call.create ident p tmo now in
  let first := Call.complete k c in
  let final := Call.completes (k :: ks) c in
  Call.emitted c = []
  ∧ Call.emitted first = [first_notification k tmo]
  ∧ Call.timer_active first = false
  ∧ Call.emitted final = [first_notification k tmo]
  ∧ Call.done final = true
  ∧ Call.timer_active final = false.
Proof.
  intros c first final.
  destruct (completes_done_emitted ks first (complete_is_done k c))
    as (He & Hd & Ht).
  unfold final.
  change (Call.completes (k :: ks) c) with (Call.completes ks first).
  rewrite He, Hd, Ht by apply complete_inactive.
  unfold first, c. rewrite complete_create_emitted.
  split_and!; try done. apply complete_inactive.
Qed.

(** C10. On a Call that is already done, [setException] and
    [setValue] emit no second 'done' and leave the done flag set, but
    they still overwrite the stored error, respectively the stored
    value, and they still clear the timer; nothing else changes. *)
Theorem completed_call_is_overwritten c e v :
  Call.done c = true →
  (Call.emitted (Call.setException e c) = Call.emitted c
   ∧ Call.done (Call.setException e c) = true
   ∧ Call.error (Call.setException e c) = Some e
   ∧ Call.value (Call.setException e c) = Call.value c
   ∧ Call.timer (Call.setException e c) = clearTimeout <$> Call.timer c
   ∧ Call.timer_active (Call.setException e c) = false)
  ∧
  (Call.emitted (Call.setValue v c) = Call.emitted c
   ∧ Call.done (Call.setValue v c) = true
   ∧ Call.value (Call.setValue v c) = Some v
   ∧ Call.error (Call.setValue v c) = Call.error c
   ∧ Call.timer (Call.setValue v c) = clearTimeout <$> Call.timer c
   ∧ Call.timer_active (Call.setValue v c) = false).
Proof.
  intros Hd. split.
  - split_and!; [..| apply callComplete_inactive];
      destruct c; simpl in *; subst; reflexivity.
  - split_and!; [..| apply callComplete_inactive];
      destruct c; simpl in *; subst; reflexivity.
Qed.

(** A Call that timed out and then receives its late response: the
    error delivered to the caller stays the timeout, while the stored
    value becomes the late one. *)
Lemma completed_call_is_overwritten_witness :
  let c := Call.fire (Call.create 0 (mkInvocation "get" []) 5000 0) in
  Call.done c = true
  ∧ Call.emitted (Call.setValue (VString "late") c)
    = [(Some (RemoteCallTimeoutException "5000 ms timeout"), None)]
  ∧ Call.value (Call.setValue (VString "late") c) = Some (VString "late").
Proof.
  intros c.
  pose proof (completed_call_is_overwritten c (TransportError "x")
                (VString "late") eq_refl) as [_ (He & _ & Hv & _)].
  split; [reflexivity|]. split; [rewrite He; reflexivity | exact Hv].
Defined.

End CallFacts.

(** ** The table of calls and its draining *)

Section Drain.

Implicit Types (w : World) (err : Err) (old : gmap Z N) (l ref : N).

Lemma set_objects_same w : set_objects (objects w) w = w.
Proof. by destruct w. Qed.

Lemma objects_on_call ref f w l :
  objects (on_call ref f w) !! l =
    if decide (l = ref) then f <$> objects w !! l else objects w !! l.
Proof.
  unfold on_call; simpl. rewrite lookup_alter.
  destruct (decide (ref = l)), (decide (l = ref)); congruence.
Qed.

(** The loop only changes Call objects. *)
Lemma fail_each_only_objects err old ids w :
  fail_each err old ids w
  = set_objects (objects (fail_each err old ids w)) w.
Proof.
  revert w. induction ids as [|id ids IH]; intros w.
  - simpl. by rewrite set_objects_same.
  - unfold fail_each in *. simpl.
    destruct (old !! id) as [ref|]; [|apply IH].
    rewrite IH at 1. reflexivity.
Qed.

Lemma fail_each_calls err old ids w :
  calls (fail_each err old ids w) = calls w.
Proof. by rewrite fail_each_only_objects. Qed.

(** The loop fails exactly the objects that the visited keys denote. *)
Lemma fail_each_lookup err old ids w l :
  objects (fail_each err old ids w) !! l =
    if decide (Exists (fun id => old !! id = Some l) ids)
    then Call.setException err <$> objects w !! l
    else objects w !! l.
Proof.
  revert w. induction ids as [|id ids IH]; intros w.
  - reflexivity.
  - change (fail_each err old (id :: ids) w)
      with (fail_each err old ids
              (match old !! id with
               | Some ref => on_call ref (Call.setException err) w
               | None => w
               end)).
    rewrite IH. clear IH.
    destruct (old !! id) as [ref|] eqn:Hid.
    + rewrite objects_on_call.
      destruct (decide (l = ref)) as [->|Hne].
      * rewrite (decide_True (P := Exists _ (id :: ids)))
          by (apply Exists_cons; by left).
        case_decide; [|done].
        rewrite <- option_fmap_compose.
        apply option_fmap_ext. intros c. apply setException_idemp.
      * destruct (decide (Exists _ ids)) as [Hex|Hex].
        -- rewrite decide_True by (apply Exists_cons; by right). done.
        -- rewrite decide_False; [done|].
           rewrite Exists_cons. intros [?|?]; [congruence | done].
    + destruct (decide (Exists _ ids)) as [Hex|Hex].
      * rewrite decide_True by (apply Exists_cons; by right). done.
      * rewrite decide_False; [done|].
        rewrite Exists_cons, Hid. intros [?|?]; [congruence | done].
Qed.

(** [for (var id in calls)] visits every key of the table, in
    ascending order. *)
Lemma elem_of_for_in (m : gmap Z N) (id : Z) :
  id ∈ for_in m ↔ is_Some (m !! id).
Proof.
  unfold for_in. rewrite merge_sort_Permutation, list_elem_of_fmap.
  split.
  - intros ([k r] & -> & Hin). apply elem_of_map_to_list in Hin. by exists r.
  - intros [r Hr]. exists (id, r). split; [done|].
    by apply elem_of_map_to_list.
Qed.

Lemma for_in_sorted (m : gmap Z N) : Sorted Z.le (for_in m).
Proof. apply Sorted_merge_sort. intros x y. lia. Qed.

Lemma for_in_empty : for_in ∅ = [].
Proof.
  pose proof (elem_of_for_in ∅) as Hin.
  destruct (for_in ∅) as [|id ids]; [done|].
  destruct (proj1 (Hin id)) as [r Hr]; [by left|].
  by rewrite lookup_empty in Hr.
Qed.

Lemma cleanupCalls_only_objects err w :
  _cleanupCalls err w
  = set_calls ∅ (set_objects (objects (_cleanupCalls err w)) w).
Proof.
  unfold _cleanupCalls. rewrite fail_each_only_objects at 1. by destruct w.
Qed.

Lemma cleanupCalls_hit err w id ref :
  calls w !! id = Some ref →
  objects (_cleanupCalls err w) !! ref
  = Call.setException err <$> objects w !! ref.
Proof.
  intros Hid. unfold _cleanupCalls. rewrite fail_each_lookup.
  rewrite decide_True; [done|].
  apply Exists_exists. exists id. split; [|done].
  apply elem_of_for_in. by exists ref.
Qed.

Lemma cleanupCalls_miss err w l :
  (∀ id, calls w !! id ≠ Some l) →
  objects (_cleanupCalls err w) !! l = objects w !! l.
Proof.
  intros Hno. unfold _cleanupCalls. rewrite fail_each_lookup.
  rewrite decide_False; [done|].
  rewrite Exists_exists. intros (id & _ & Hid). by apply (Hno id).
Qed.

Lemma cleanupCalls_empty err w :
  calls w = ∅ → _cleanupCalls err w = w.
Proof.
  intros He. unfold _cleanupCalls. rewrite He, for_in_empty. simpl.
  rewrite <- He. by destruct w.
Qed.

Lemma cleanupCalls_calls err w : calls (_cleanupCalls err w) = ∅.
Proof. by rewrite cleanupCalls_only_objects. Qed.

Lemma cleanup_after_all err w :
  cleanup_after (length (for_in (calls w))) err w = _cleanupCalls err w.
Proof. unfold cleanup_after, _cleanupCalls. by rewrite firstn_all. Qed.

Lemma handle_unfold (f : SocketFailure) w :
  let w1 := _cleanupCalls (failure_error f w) (before_cleanup f w) in
  handle f w = match f with OnClose => emit "close" w1 | OnError _ => w1 end.
Proof. by destruct f. Qed.

Lemma objects_handle (f : SocketFailure) w :
  objects (handle f w)
  = objects (_cleanupCalls (failure_error f w) (before_cleanup f w)).
Proof. by destruct f. Qed.

Lemma calls_handle (f : SocketFailure) w : calls (handle f w) = ∅.
Proof.
  destruct f; simpl; unfold _handleClose, _handleError; simpl;
    apply cleanupCalls_calls.
Qed.

(** C2. When the socket fires 'close' or 'error' ([handle f]):
    - the table is empty afterwards;
    - every outstanding Call of the table completes: its listeners
      receive exactly one notification, which carries the
      connection-level error and no value, and the Call is done;
    - a Call that was done already receives nothing more, and a Call
      object that the table does not hold is left as it was;
    - the table is replaced before the calls are failed: at every
      point of the loop of [_cleanupCalls], and before its first
      iteration, when no Call has been failed yet, [this.calls] is
      the empty table;
    - a second 'close' changes no Call object, so that nothing is
      notified twice, and leaves the table empty. *)
Theorem drain_on_close_or_error (f : SocketFailure) (w : World) :
  let err := failure_error f w in
  let w' := handle f w in
  calls w' = ∅
  ∧ (∀ id ref c,
       calls w !! id = Some ref → objects w !! ref = Some c →
       Call.done c = false → Call.wf c →
       ∃ c', objects w' !! ref = Some c'
             ∧ Call.emitted c' = [(Some err, None)]
             ∧ Call.done c' = true
             ∧ Call.error c' = Some err
             ∧ Call.timer_active c' = false)
  ∧ (∀ id ref c,
       calls w !! id = Some ref → objects w !! ref = Some c →
       Call.done c = true →
       ∃ c', objects w' !! ref = Some c' ∧ Call.emitted c' = Call.emitted c)
  ∧ (∀ ref, (∀ id, calls w !! id ≠ Some ref) →
            objects w' !! ref = objects w !! ref)
  ∧ (∀ n, calls (cleanup_after n err (before_cleanup f w)) = ∅)
  ∧ objects (cleanup_after 0 err (before_cleanup f w)) = objects w
  ∧ objects w'
    = objects (cleanup_after (length (for_in (calls w))) err (before_cleanup f w))
  ∧ objects (_handleClose w') = objects w'
  ∧ calls (_handleClose w') = ∅.
Proof.
  intros err w'.
  assert (Hw' : objects w' = objects (_cleanupCalls err (before_cleanup f w)))
    by apply objects_handle.
  assert (Hc : calls (before_cleanup f w) = calls w) by by destruct f.
  assert (Ho : objects (before_cleanup f w) = objects w) by by destruct f.
  split_and!.
  - apply calls_handle.
  - intros id ref c Hid Href Hd Hwf.
    exists (Call.setException err c).
    rewrite Hw', (cleanupCalls_hit _ _ id) by by rewrite Hc.
    rewrite Ho, Href.
    destruct (setException_outstanding err c Hd Hwf) as (? & ? & ? & ? & ?).
    done.
  - intros id ref c Hid Href Hd.
    exists (Call.setException err c).
    rewrite Hw', (cleanupCalls_hit _ _ id) by by rewrite Hc.
    rewrite Ho, Href. split; [done|].
    apply (complete_done_emitted (Call.Failure err)), Hd.
  - intros ref Hno. rewrite Hw', cleanupCalls_miss; [by rewrite Ho|].
    intros id. rewrite Hc. apply Hno.
  - intros n. unfold cleanup_after. by rewrite fail_each_calls.
  - by rewrite <- Ho.
  - rewrite Hw', <- Hc. by rewrite cleanup_after_all.
  - unfold _handleClose. simpl.
    rewrite cleanupCalls_empty; [done|]. simpl. apply calls_handle.
  - apply (calls_handle OnClose).
Qed.

End Drain.

Section DrainFacts.

Implicit Types (w : World) (err : Err) (l ref : N).

(** An outstanding Call of the table is completed by [_cleanupCalls],
    once, with the error of the drain. *)
Lemma cleanupCalls_outstanding err w id ref c :
  calls w !! id = Some ref → objects w !! ref = Some c →
  Call.done c = false → Call.wf c →
  ∃ c', objects (_cleanupCalls err w) !! ref = Some c'
        ∧ Call.id c' = Call.id c
        ∧ Call.param c' = Call.param c
        ∧ Call.emitted c' = [(Some err, None)]
        ∧ Call.done c' = true
        ∧ Call.error c' = Some err
        ∧ Call.timer_active c' = false.
Proof.
  intros Hid Href Hd Hwf. exists (Call.setException err c).
  rewrite (cleanupCalls_hit _ _ id), Href by done.
  destruct (setException_outstanding err c Hd Hwf) as (? & ? & ? & ? & ?).
  rewrite setException_id, setException_param. done.
Qed.

(** C2, on the two calls of [sample_world] and a socket 'close'. *)
Lemma drain_on_close_or_error_witness :
  let err := ConnectionClosedException "socket localhost:60020 closed." in
  let w' := handle OnClose sample_world in
  calls w' = ∅
  ∧ (∃ c0, objects w' !! 0%N = Some c0 ∧ Call.emitted c0 = [(Some err, None)])
  ∧ (∃ c1, objects w' !! 1%N = Some c1 ∧ Call.emitted c1 = [(Some err, None)]).
Proof.
  intros err w'.
  destruct (drain_on_close_or_error OnClose sample_world) as (He & Hout & _).
  split; [exact He|]. split.
  - destruct (Hout 0 0%N (Call.create 0 (mkInvocation "echo" []) 5000 0))
      as (c' & ? & ? & _); [reflexivity | reflexivity | reflexivity | |].
    + apply create_wf.
    + by exists c'.
  - destruct (Hout 1 1%N
                (Call.create 1 (mkInvocation "get" [VString "row"]) 10000 1))
      as (c' & ? & ? & _); [reflexivity | reflexivity | reflexivity | |].
    + apply create_wf.
    + by exists c'.
Defined.

(** C4, as stated, fails: after a socket 'error' with two calls
    pending, the closed flag is not set and the Connection has
    emitted nothing. *)
Lemma socket_error_leaves_connection_open :
  let w' := _handleError (TransportError "read ECONNRESET") sample_world in
  closed sample_world = false
  ∧ closed w' = false
  ∧ events w' = []
  ∧ ¬ (closed w' = true).
Proof. vm_compute. split_and!; congruence. Qed.

(** C4, amended. On a socket 'error' the handler fails every
    outstanding Call of the table with the transport error and leaves
    the table empty; it does not touch the closed flag, emits nothing
    and does not end the socket. The flag is set, and 'close' is
    emitted, by the handler of the socket's 'close' event. *)
Theorem socket_error_fails_every_call err w :
  let w' := _handleError err w in
  calls w' = ∅
  ∧ (∀ id ref c,
       calls w !! id = Some ref → objects w !! ref = Some c →
       Call.done c = false → Call.wf c →
       ∃ c', objects w' !! ref = Some c'
             ∧ Call.emitted c' = [(Some err, None)]
             ∧ Call.done c' = true
             ∧ Call.error c' = Some err)
  ∧ closed w' = closed w
  ∧ events w' = events w
  ∧ ended w' = ended w
  ∧ closed (_handleClose w') = true
  ∧ events (_handleClose w') = events w ++ ["close"].
Proof.
  intros w'. unfold w', _handleError.
  split_and!.
  - apply cleanupCalls_calls.
  - intros id ref c Hid Href Hd Hwf.
    destruct (cleanupCalls_outstanding err w id ref c)
      as (c' & ? & _ & _ & ? & ? & ? & _); try done.
    by exists c'.
  - by rewrite cleanupCalls_only_objects.
  - by rewrite cleanupCalls_only_objects.
  - by rewrite cleanupCalls_only_objects.
  - unfold _handleClose. simpl. by rewrite cleanupCalls_only_objects.
  - unfold _handleClose, emit. simpl.
    rewrite cleanupCalls_only_objects. simpl.
    by rewrite cleanupCalls_only_objects.
Qed.

(** C4 amended, on the two calls of [sample_world]. *)
Lemma socket_error_fails_every_call_witness :
  let err := TransportError "read ECONNRESET" in
  let w' := _handleError err sample_world in
  (∃ c0, objects w' !! 0%N = Some c0 ∧ Call.emitted c0 = [(Some err, None)])
  ∧ closed w' = false.
Proof.
  intros err w'.
  destruct (socket_error_fails_every_call err sample_world)
    as (_ & Hout & Hcl & _).
  split; [|exact Hcl].
  destruct (Hout 0 0%N (Call.create 0 (mkInvocation "echo" []) 5000 0))
    as (c' & ? & ? & _); [reflexivity | reflexivity | reflexivity | |].
  - apply create_wf.
  - by exists c'.
Defined.

End DrainFacts.

(** ** The request frame *)

Section Wire.

Lemma byte_of_spec (v k : Z) :
  0 ≤ k → byte_of v k = (v / 2 ^ (8 * k)) mod 256.
Proof.
  intros Hk. unfold byte_of.
  rewrite Z.shiftr_div_pow2 by lia.
  change 255 with (Z.ones 8). rewrite Z.land_ones by lia. reflexivity.
Qed.

Lemma byte_of_range (v k : Z) : 0 ≤ k → 0 ≤ byte_of v k < 256.
Proof.
  intros Hk. rewrite byte_of_spec by done. apply Z.mod_pos_bound. lia.
Qed.

Lemma int_bytes_length (v : Z) : length (int_bytes v) = 4%nat.
Proof. reflexivity. Qed.

Lemma int_bytes_range (v : Z) : Forall (fun b => 0 ≤ b < 256) (int_bytes v).
Proof. unfold int_bytes. repeat constructor; apply byte_of_range; lia. Qed.

(** Reading back the four bytes of a 32-bit integer gives the integer. *)
Lemma int_of_bytes_int_bytes (v : Z) :
  - 2 ^ 31 ≤ v < 2 ^ 31 →
  int_of_bytes (byte_of v 3) (byte_of v 2) (byte_of v 1) (byte_of v 0) = v.
Proof.
  intros Hv. unfold int_of_bytes. rewrite !byte_of_spec by lia.
  change (2 ^ (8 * 3)) with 16777216. change (2 ^ (8 * 2)) with 65536.
  change (2 ^ (8 * 1)) with 256. change (2 ^ (8 * 0)) with 1.
  change (2 ^ 24) with 16777216. change (2 ^ 16) with 65536.
  change (2 ^ 8) with 256. change (2 ^ 31) with 2147483648 in *.
  change (2 ^ 32) with 4294967296.
  rewrite Z.div_1_r.
  destruct (Z.ltb_spec
              (v / 16777216 mod 256 * 16777216 + v / 65536 mod 256 * 65536
               + v / 256 mod 256 * 256 + v mod 256) 2147483648);
    Z.div_mod_to_equations; lia.
Qed.

(** The bytes of an integer outside the 32-bit range are those of its
    wrap-around. *)
Lemma int_bytes_wrap (v : Z) : int_bytes (v + 2 ^ 32) = int_bytes v.
Proof.
  assert (Hb : ∀ k, 0 ≤ k ≤ 3 → byte_of (v + 2 ^ 32) k = byte_of v k).
  { intros k Hk. rewrite !byte_of_spec by lia.
    change (2 ^ 32) with 4294967296.
    assert (k = 0 ∨ k = 1 ∨ k = 2 ∨ k = 3) as [->|[->|[->| ->]]] by lia.
    - change (2 ^ (8 * 0)) with 1. Z.div_mod_to_equations; lia.
    - change (2 ^ (8 * 1)) with 256. Z.div_mod_to_equations; lia.
    - change (2 ^ (8 * 2)) with 65536. Z.div_mod_to_equations; lia.
    - change (2 ^ (8 * 3)) with 16777216. Z.div_mod_to_equations; lia. }
  unfold int_bytes. rewrite !Hb by lia. reflexivity.
Qed.

(** [Call_Counter++] adds one as long as the counter is below [2^53]. *)
Lemma js_succ_exact (n : Z) : n < 2 ^ 53 → js_succ n = n + 1.
Proof. intros Hn. unfold js_succ. destruct (Z.ltb_spec n (2 ^ 53)); lia. Qed.

End Wire.

Section Requests.

Context `{codec : Codec}.

Implicit Types (w : World) (ref : N) (c : Call.t).

(** The buffer that [sendParam] builds, before and after the length
    is written over the placeholder. *)
Lemma sendParam_written ref c w :
  objects w !! ref = Some c →
  let inv := Invocation_write (Call.param c) in
  let placeholder := int_bytes 0 ++ int_bytes (Call.id c) ++ inv in
  let n := Z.of_nat (length placeholder) - 4 in
  sendParam ref w
  = set_written (written w ++ int_bytes n ++ int_bytes (Call.id c) ++ inv) w.
Proof.
  intros Href inv placeholder n.
  set (frame := int_bytes n ++ int_bytes (Call.id c) ++ inv).
  assert (Hput : Bytes_putInt placeholder 0 n = frame) by reflexivity.
  assert (Hlen : length frame = length placeholder) by reflexivity.
  unfold sendParam, id_of, param_bytes. rewrite Href.
  change (set_written
            (written w
             ++ take (Z.to_nat (Z.of_nat (length placeholder)))
                  (Bytes_putInt placeholder 0 n)) w
          = set_written (written w ++ frame) w).
  rewrite Hput, Nat2Z.id, <- Hlen, firstn_all. reflexivity.
Qed.

(** C7. The bytes that [sendParam] writes for a Call are a 4-byte
    length field, the 4-byte call id and the serialized invocation;
    the length field holds the number of bytes that follow it (the
    length of the buffer minus 4), written over the placeholder at
    offset 0 once the invocation is serialized; nothing but the
    output of the socket changes. *)
Theorem request_frame_layout ref c w :
  objects w !! ref = Some c →
  let inv := Invocation_write (Call.param c) in
  let placeholder := int_bytes 0 ++ int_bytes (Call.id c) ++ inv in
  let n := Z.of_nat (length placeholder) - 4 in
  let frame := int_bytes n ++ int_bytes (Call.id c) ++ inv in
  sendParam ref w = set_written (written w ++ frame) w
  ∧ written (sendParam ref w) = written w ++ frame
  ∧ frame = Bytes_putInt placeholder 0 n
  ∧ length frame = length placeholder
  ∧ n = Z.of_nat (length (int_bytes (Call.id c) ++ inv))
  ∧ Forall (fun b => 0 ≤ b < 256) (int_bytes n ++ int_bytes (Call.id c))
  ∧ (n < 2 ^ 31 →
     int_of_bytes (byte_of n 3) (byte_of n 2) (byte_of n 1) (byte_of n 0)
     = Z.of_nat (length frame) - 4).
Proof.
  intros Href inv placeholder n frame.
  assert (Hlen : length frame = length placeholder) by reflexivity.
  pose proof (sendParam_written ref c w Href) as Hsend.
  split_and!; try done.
  - by rewrite Hsend.
  - unfold n, placeholder. rewrite !length_app, !int_bytes_length. lia.
  - apply Forall_app. split; apply int_bytes_range.
  - intros Hn. rewrite int_of_bytes_int_bytes.
    + by rewrite Hlen.
    + unfold n, placeholder in *. rewrite length_app, int_bytes_length in *.
      lia.
Qed.

End Requests.

(** C7, on the first call of [sample_world]. *)
Lemma request_frame_layout_witness :
  written (sendParam (codec := sample_codec) 0%N
             (set_written [] sample_world))
  = [0; 0; 0; 13] ++ [0; 0; 0; 0] ++ [4; 101; 99; 104; 111; 0; 0; 0; 0].
Proof.
  destruct (request_frame_layout (codec := sample_codec) 0%N
              (Call.create 0 (mkInvocation "echo" []) 5000 0)
              (set_written [] sample_world) eq_refl) as (_ & Hw & _).
  rewrite Hw. reflexivity.
Defined.


(** ** Issuing a call *)

Section Calls.

Context `{codec : Codec}.

Implicit Types (w : World) (ref : N) (c : Call.t).

(** [call] step by step: the effective timeout, the new Call object
    with the identity taken from the counter, its registration, then
    the drain of a closed connection or the request frame. *)
Lemma call_unfold method params timeout now w :
  call method params timeout now w
  = if closed w
    then _handleClose (registered method params timeout now w)
    else sendParam (allocated w) (registered method params timeout now w).
Proof.
  unfold call, new_Call, id_of, registered. simpl.
  rewrite lookup_insert_eq. reflexivity.
Qed.

(** C6. A call issued on a Connection whose closed flag is set
    completes before [call] returns: the new Call object, which has
    taken its identity from the counter, is done, its listeners have
    received exactly one notification carrying the connection-closed
    error and no value, its timer is not armed, the table is empty;
    and nothing has been written to the socket. *)
Theorem call_on_closed_connection method params timeout now w :
  closed w = true →
  let w' := call method params timeout now w in
  let err := ConnectionClosedException (closed_message (address w)) in
  written w' = written w
  ∧ (∃ c', objects w' !! allocated w = Some c'
           ∧ Call.id c' = Call_Counter w
           ∧ Call.param c' = mkInvocation method params
           ∧ Call.emitted c' = [(Some err, None)]
           ∧ Call.done c' = true
           ∧ Call.error c' = Some err
           ∧ Call.timer_active c' = false)
  ∧ calls w' = ∅
  ∧ closed w' = true.
Proof.
  intros Hcl w' err. unfold w'. rewrite call_unfold, Hcl.
  unfold registered, _handleClose, emit. simpl.
  set (c := Call.create _ _ _ _).
  set (w2 := set_closed true _).
  split_and!.
  - by rewrite cleanupCalls_only_objects.
  - destruct (cleanupCalls_outstanding err w2 (Call_Counter w) (allocated w) c)
      as (c' & ? & ? & ? & ? & ? & ? & ?).
    + unfold w2. simpl. apply lookup_insert_eq.
    + unfold w2. simpl. apply lookup_insert_eq.
    + reflexivity.
    + apply create_wf.
    + exists c'. done.
  - by rewrite cleanupCalls_only_objects.
  - by rewrite cleanupCalls_only_objects.
Qed.

(** On an open connection [call] registers the Call and writes its
    request frame. *)
Lemma call_on_open_connection method params timeout now w :
  closed w = false →
  let w' := call method params timeout now w in
  let c := Call.create (Call_Counter w) (mkInvocation method params)
             (effective_timeout timeout w) now in
  objects w' = <[allocated w := c]> (objects w)
  ∧ calls w' = <[Call_Counter w := allocated w]> (calls w)
  ∧ written w'
    = written w
      ++ int_bytes (Z.of_nat (length (Invocation_write (mkInvocation method params))) + 4)
      ++ int_bytes (Call_Counter w)
      ++ Invocation_write (mkInvocation method params).
Proof.
  intros Hcl w' c. unfold w'. rewrite call_unfold, Hcl. unfold registered.
  set (w2 := set_calls _ _).
  pose proof (sendParam_written (allocated w) c w2) as Hs.
  rewrite Hs by (unfold w2; simpl; apply lookup_insert_eq).
  simpl. split_and!; try done.
  repeat f_equal; lia.
Qed.

End Calls.

(** C6, on a connection that a socket 'close' has closed. *)
Lemma call_on_closed_connection_witness :
  let w := _handleClose sample_world in
  let w' := call (codec := sample_codec) "get" [] (Some 1000) 7 w in
  closed w = true
  ∧ written w' = written w
  ∧ ∃ c', objects w' !! 2%N = Some c'
          ∧ Call.emitted c'
            = [(Some (ConnectionClosedException "socket localhost:60020 closed."),
                None)].
Proof.
  intros w w'.
  destruct (call_on_closed_connection (codec := sample_codec)
              "get" [] (Some 1000) 7 w eq_refl)
    as (Hw & (c' & Hc' & _ & _ & He & _) & _).
  split; [reflexivity|]. split; [exact Hw|].
  exists c'. split; [exact Hc' | exact He].
Defined.

(** ** The response dispatch *)

(** Runs the state-and-exception monad of a handler. *)
Ltac run_handler :=
  unfold deref, reads, gets, modify, throw;
  unfold mbind, M_bind, bind, mret, M_ret, ret; simpl.

Section Dispatch.

Context `{codec : Codec}.

Implicit Types (w : World) (ref : N) (c : Call.t) (d : Prefix).

(** C5. A response whose flag has the error bit and the
    has-declared-length bit, for a Call that is outstanding in the
    table, and whose payload holds the state word and two strings:
    the handler returns normally; the Call is removed from the table
    and completes with the remote error that carries the two strings
    in the order read (class name, message): its listeners receive
    exactly that one notification, with no value, and no value is
    stored; no other Call object changes; the Connection is neither
    marked closed nor is its socket ended, it emits nothing, and the
    read of the next response is registered. *)
Theorem error_response_completes_with_remote_error
    d buf w ref c (state : Z) (io1 io2 io3 : list Z) (cls msg : string) :
  ResponseFlag_isError (prefix_flag d) = true →
  ResponseFlag_isLength (prefix_flag d) = true →
  calls w !! prefix_id d = Some ref →
  objects w !! ref = Some c →
  Call.done c = false →
  Call.wf c →
  io_readInt buf = Some (state, io1) →
  io_readString io1 = Some (cls, io2) →
  io_readString io2 = Some (msg, io3) →
  let err := RemoteException cls msg in
  ∃ w' c',
    on_response None (Some d) buf w = (Ok tt, w')
    ∧ objects w' !! ref = Some c'
    ∧ Call.emitted c' = [(Some err, None)]
    ∧ Call.done c' = true
    ∧ Call.error c' = Some err
    ∧ Call.value c' = None
    ∧ (∀ l, l ≠ ref → objects w' !! l = objects w !! l)
    ∧ calls w' = delete (prefix_id d) (calls w)
    ∧ closed w' = closed w
    ∧ ended w' = ended w
    ∧ events w' = events w
    ∧ written w' = written w
    ∧ reading w' = true.
Proof.
  intros Herr Hlen Hid Href Hd Hwf Hint Hs1 Hs2 err.
  destruct (setException_outstanding err c Hd Hwf) as (He & Hd' & Her & Hv & _).
  eexists _, (Call.setException err c).
  unfold on_response. run_handler.
  rewrite Hid, Herr, Hlen. simpl. rewrite Hint. simpl.
  rewrite Hs1. simpl. rewrite Hs2. simpl.
  split; [reflexivity|]. simpl.
  split_and!; try done.
  - rewrite lookup_alter, decide_True by done. by rewrite Href.
  - intros l Hl. by rewrite lookup_alter, decide_False.
Qed.

(** Whatever the table and the payload, the handling of a response
    with both bits set never marks the Connection closed, never ends
    its socket and never makes it emit an event. *)
Lemma error_response_keeps_connection_open d buf w :
  ResponseFlag_isLength (prefix_flag d) = true →
  let w' := (on_response None (Some d) buf w).2 in
  closed w' = closed w ∧ ended w' = ended w ∧ events w' = events w.
Proof.
  intros Hlen. unfold on_response. run_handler. rewrite Hlen. simpl.
  repeat (case_match; simpl; simplify_eq; try done).
Qed.

(** C3, on the code. A response whose call id is not a key of the
    table is not ignored: whatever its flag and its payload, and also
    when the read of the prefix reported an error, the handler throws
    (a TypeError for the method call on the missing Call, unless the
    decoding of the payload has thrown before); no Call object is
    touched and the read of the next response is not registered. *)
Theorem response_for_unknown_id_throws (err : option Err) d buf w :
  calls w !! prefix_id d = None →
  ∃ e w',
    on_response err (Some d) buf w = (Exn e, w')
    ∧ objects w' = objects w
    ∧ reading w' = reading w
    ∧ ((err = None → ResponseFlag_isLength (prefix_flag d) = true →
        ResponseFlag_isError (prefix_flag d) = false →
        is_Some (io_readInt buf ≫= fun r => HbaseObjectWritable_readFields r.2) →
        e = TypeError "Cannot read property 'id' of undefined")
       ∧ (err = None → ResponseFlag_isLength (prefix_flag d) = true →
          ResponseFlag_isError (prefix_flag d) = true →
          is_Some (io_readInt buf ≫= fun r =>
                   io_readString r.2 ≫= fun s => io_readString s.2) →
          e = TypeError "Cannot read property 'setException' of undefined")
       ∧ (err ≠ None ∨ ResponseFlag_isLength (prefix_flag d) = false →
          e = TypeError "Cannot read property 'setException' of undefined")).
Proof.
  intros Hid. unfold on_response. run_handler. rewrite Hid.
  destruct err as [e0|]; simpl;
    [| destruct (ResponseFlag_isLength (prefix_flag d)) eqn:Hlen; simpl;
       [ destruct (io_readInt buf) as [[state io1]|] eqn:Hint; simpl;
         [ destruct (ResponseFlag_isError (prefix_flag d)) eqn:Herr; simpl;
           [ destruct (io_readString io1) as [[cls io2]|] eqn:Hs1; simpl;
             [ destruct (io_readString io2) as [[msg io3]|] eqn:Hs2; simpl |]
           | destruct (HbaseObjectWritable_readFields io1)
               as [[obj io2]|] eqn:Hrf; simpl ] |] |] ].
  all: eexists _, _; split; [reflexivity|]; simpl.
  all: split_and!; try done.
  all: try (intros ? ? ? [? ?]; simplify_eq; done).
  all: try (intros; simplify_eq; done).
  all: intros [?|?]; simplify_eq; done.
Qed.

End Dispatch.

(** ** Runs of the process *)

Section MethodSteps.

Implicit Types (w : World) (ref l : N) (c : Call.t).

Lemma method_steps_id c c' : rtc method_step c c' → Call.id c' = Call.id c.
Proof.
  induction 1 as [|c c1 c2 Hs _ IH]; [done|].
  rewrite IH. destruct Hs; [apply setValue_id | apply setException_id | apply fire_id].
Qed.

Lemma method_step_no_deadline c c' :
  method_step c c' → no_deadline c → no_deadline c'.
Proof.
  intros Hs (Ht & He & Hn). destruct Hs as [v c|e c Hne|c].
  - destruct c as [i p val er dn st tm tmr em]; simpl in *; subst tmr.
    destruct dn; unfold no_deadline; simpl; (split_and!; [done | done |]).
    + exact Hn.
    + intros e' v' Hin. apply elem_of_app in Hin as [Hin|Hin]; [by eapply Hn|].
      apply list_elem_of_singleton in Hin. simplify_eq. by apply He.
  - destruct c as [i p val er dn st tm tmr em]; simpl in *; subst tmr.
    destruct dn; unfold no_deadline; simpl;
      (split_and!; [done | by intros; simplify_eq |]).
    + exact Hn.
    + intros e' v' Hin. apply elem_of_app in Hin as [Hin|Hin]; [by eapply Hn|].
      apply list_elem_of_singleton in Hin. by simplify_eq.
  - unfold Call.fire. rewrite Ht. done.
Qed.

Lemma method_steps_no_deadline c c' :
  rtc method_step c c' → no_deadline c → no_deadline c'.
Proof. induction 1; eauto using method_step_no_deadline. Qed.

Lemma method_steps_wf c c' : rtc method_step c c' → Call.wf c → Call.wf c'.
Proof.
  induction 1 as [|c c1 c2 Hs _ IH]; [done|]. intros Hwf. apply IH.
  destruct Hs as [v c|e c _|c].
  - by apply (complete_wf (Call.Response v)).
  - by apply (complete_wf (Call.Failure e)).
  - by apply fire_wf.
Qed.

Lemma no_deadline_not_timed_out c : no_deadline c → ¬ timed_out c.
Proof.
  intros (_ & _ & Hn) (e & v & Hin & Ht). rewrite (Hn e v Hin) in Ht. done.
Qed.

Lemma same_calls_refl w : same_calls w w.
Proof.
  split_and!; done.
Qed.

Lemma same_calls_trans w1 w2 w3 :
  same_calls w1 w2 → same_calls w2 w3 → same_calls w1 w3.
Proof.
  intros (Hc1 & Ha1 & Ho1) (Hc2 & Ha2 & Ho2).
  split_and!; [congruence | congruence |].
  intros l. specialize (Ho1 l). specialize (Ho2 l).
  destruct Ho1 as [c1 c2 H12|]; inversion Ho2; subst; constructor.
  by etrans.
Qed.

(** Changing anything but the Call objects and the counters. *)
Lemma same_calls_frame w w' :
  Call_Counter w' = Call_Counter w → allocated w' = allocated w →
  objects w' = objects w → same_calls w w'.
Proof.
  intros Hc Ha Ho. split_and!; try done. intros l. rewrite Ho.
  destruct (objects w !! l); by constructor.
Qed.

Lemma same_calls_on_call ref (f : Call.t → Call.t) w :
  (∀ c, method_step c (f c)) → same_calls w (on_call ref f w).
Proof.
  intros Hf. split_and!; try done. intros l. rewrite objects_on_call.
  case_decide; destruct (objects w !! l); simpl; constructor;
    [by apply rtc_once | done].
Qed.

Lemma same_calls_fail_each err old ids w :
  is_timeout_error err = false → same_calls w (fail_each err old ids w).
Proof.
  intros Hne. revert w. induction ids as [|id ids IH]; intros w.
  - apply same_calls_refl.
  - change (fail_each err old (id :: ids) w)
      with (fail_each err old ids
              (match old !! id with
               | Some ref => on_call ref (Call.setException err) w
               | None => w
               end)).
    eapply same_calls_trans; [|apply IH].
    destruct (old !! id); [|apply same_calls_refl].
    apply same_calls_on_call. intros c. by constructor.
Qed.

Lemma same_calls_cleanupCalls err w :
  is_timeout_error err = false → same_calls w (_cleanupCalls err w).
Proof.
  intros Hne. unfold _cleanupCalls.
  eapply same_calls_trans; [|by apply same_calls_fail_each].
  by apply same_calls_frame.
Qed.

Lemma same_calls_handleClose w : same_calls w (_handleClose w).
Proof.
  unfold _handleClose, emit.
  eapply same_calls_trans; [|apply same_calls_frame; reflexivity].
  eapply same_calls_trans; [|by apply same_calls_cleanupCalls].
  by apply same_calls_frame.
Qed.

(** What survives the method calls of a handler. *)
Lemma same_calls_ids_in_order w w' :
  same_calls w w' → ids_in_order w → ids_in_order w'.
Proof.
  intros (Hc & Ha & Ho) (Hcnt & Hall & Hid). unfold ids_in_order.
  rewrite Hc, Ha. split_and!; [done | |].
  - intros l Hl. destruct (Hall l Hl) as [c Hlc]. specialize (Ho l).
    rewrite Hlc in Ho. inversion Ho. by eexists.
  - intros l c' Hl. specialize (Ho l). rewrite Hl in Ho.
    inversion Ho as [c ? Hsteps Heq|]; subst.
    destruct (Hid l c) as [? Hidc]; [done|].
    split; [done|]. rewrite <- Hidc. by apply method_steps_id.
Qed.

Lemma same_calls_no_deadline_at l w w' :
  same_calls w w' → no_deadline_at l w → no_deadline_at l w'.
Proof.
  intros (Hc & Ha & Ho) (Hl & c & Hlc & Hn). unfold no_deadline_at.
  rewrite Ha. split; [done|]. specialize (Ho l). rewrite Hlc in Ho.
  inversion Ho as [? c' Hsteps|]; subst. exists c'. split; [done|].
  by eapply method_steps_no_deadline.
Qed.

Lemma same_calls_wf w w' : same_calls w w' → calls_wf w → calls_wf w'.
Proof.
  intros (_ & _ & Ho) Hwf l c' Hl. specialize (Ho l). rewrite Hl in Ho.
  inversion Ho as [c ? Hsteps Hx Hy|]; subst.
  eapply method_steps_wf; [done|]. by eapply Hwf.
Qed.

(** What survives the creation of a Call. *)
Lemma registered_wf method params timeout now w :
  calls_wf w → calls_wf (registered method params timeout now w).
Proof.
  intros Hwf l c. unfold registered. simpl.
  destruct (decide (l = allocated w)) as [->|Hne].
  - rewrite lookup_insert_eq. intros [= <-]. apply create_wf.
  - rewrite lookup_insert_ne by done. apply Hwf.
Qed.

Lemma registered_ids_in_order method params timeout now w :
  ids_in_order w → ids_in_order (registered method params timeout now w).
Proof.
  intros (Hcnt & Hall & Hid). unfold ids_in_order, registered. simpl.
  split_and!.
  - rewrite Hcnt. unfold js_succ. case_match; lia.
  - intros l Hl. destruct (decide (l = allocated w)) as [->|Hne].
    + rewrite lookup_insert_eq. by eexists.
    + rewrite lookup_insert_ne by done. apply Hall. lia.
  - intros l c. destruct (decide (l = allocated w)) as [->|Hne].
    + rewrite lookup_insert_eq. intros [= <-]. simpl. split; [lia | done].
    + rewrite lookup_insert_ne by done. intros Hl.
      destruct (Hid l c Hl). split; [lia | done].
Qed.

Lemma registered_no_deadline_at l method params timeout now w :
  no_deadline_at l w → no_deadline_at l (registered method params timeout now w).
Proof.
  intros (Hl & c & Hlc & Hn). unfold no_deadline_at, registered. simpl.
  split; [lia|]. exists c. split; [|done].
  rewrite lookup_insert_ne by lia. done.
Qed.

End MethodSteps.

Section Runs.

Context `{codec : Codec}.

Implicit Types (w : World) (ref l : N) (c : Call.t) (ev : Event).

Lemma same_calls_sendParam ref w : same_calls w (sendParam ref w).
Proof. by apply same_calls_frame. Qed.

(** The handler of a response only makes method calls on Call
    objects, with a value or with an error that is not a deadline
    error, also when it throws. *)
Lemma same_calls_on_response (err : option Err) data buf w :
  (∀ e, err = Some e → is_timeout_error e = false) →
  same_calls w (on_response err data buf w).2.
Proof.
  intros Hne. unfold on_response. run_handler.
  assert (Hcall : ∀ ref f w0,
             (∀ c, method_step c (f c)) → objects w0 = objects w →
             Call_Counter w0 = Call_Counter w → allocated w0 = allocated w →
             same_calls w (on_call ref f w0)).
  { intros ref f w0 Hf Ho Hc Ha.
    eapply same_calls_trans; [by apply (same_calls_frame w w0)|].
    by apply same_calls_on_call. }
  repeat (case_match; simpl; simplify_eq);
    try (by apply same_calls_frame).
  all: cbn [snd]; unfold _close, _nextResponse.
  all: eapply same_calls_trans; [|by apply same_calls_frame].
  all: apply Hcall; [|done..].
  all: intros c0; constructor; by eauto.
Qed.

(** Every event but a call leaves the Call objects in place; a call
    creates one object and then does the same. *)
Lemma step_same_calls ev w :
  same_calls
    (match ev with
     | Invoke method params timeout now => registered method params timeout now w
     | _ => w
     end)
    (step ev w).2.
Proof.
  destruct ev as [method params timeout now|err data buf|ref| |msg]; simpl.
  - rewrite call_unfold. destruct (closed w).
    + apply same_calls_handleClose.
    + apply same_calls_sendParam.
  - unfold mbind, M_bind, bind, modify. simpl.
    pose proof (same_calls_on_response (TransportError <$> err) data buf
                  (set_reading false w)) as Hs.
    eapply same_calls_trans;
      [by apply (same_calls_frame w (set_reading false w))|].
    assert (Hok : same_calls (set_reading false w)
                    (on_response (TransportError <$> err) data buf
                       (set_reading false w)).2).
    { apply Hs. intros e0 He0. destruct err; by simplify_eq/=. }
    by destruct (on_response _ _ _ _) as [[[]|e] w'].
  - apply same_calls_on_call. intros c. constructor.
  - apply same_calls_handleClose.
  - unfold _handleError. by apply same_calls_cleanupCalls.
Qed.

Lemma after_cons ev evs w :
  after (ev :: evs) w
  = match step ev w with
    | (Ok _, w') => after evs w'
    | (Exn _, w') => w'
    end.
Proof.
  unfold after. simpl. unfold mbind, M_bind, bind.
  by destruct (step ev w) as [[[]|e] w'].
Qed.

(** A property that every event preserves holds along every run. *)
Lemma after_invariant (P : World → Prop) :
  (∀ ev w, P w → P (step ev w).2) →
  ∀ evs w, P w → P (after evs w).
Proof.
  intros Hstep evs. induction evs as [|ev evs IH]; intros w Hw; [done|].
  rewrite after_cons. specialize (Hstep ev w Hw).
  destruct (step ev w) as [[[]|e] w']; simpl in *; [by apply IH | done].
Qed.

Lemma step_ids_in_order ev w : ids_in_order w → ids_in_order (step ev w).2.
Proof.
  intros Hw. eapply same_calls_ids_in_order; [apply step_same_calls|].
  destruct ev; try done. by apply registered_ids_in_order.
Qed.

Lemma step_no_deadline_at l ev w :
  no_deadline_at l w → no_deadline_at l (step ev w).2.
Proof.
  intros Hw. eapply same_calls_no_deadline_at; [apply step_same_calls|].
  destruct ev; try done. by apply registered_no_deadline_at.
Qed.

Lemma step_calls_wf ev w : calls_wf w → calls_wf (step ev w).2.
Proof.
  intros Hw. eapply same_calls_wf; [apply step_same_calls|].
  destruct ev; try done. by apply registered_wf.
Qed.

(** Along any run of a fresh process every Call object is either
    outstanding, with nothing stored and nothing delivered, or done,
    with exactly one notification delivered. *)
Lemma run_calls_wf (remoteId : RemoteId) (evs : list Event) :
  calls_wf (after evs (Connection remoteId)).
Proof.
  apply (after_invariant calls_wf); [apply step_calls_wf|].
  intros l c. simpl. by rewrite lookup_empty.
Qed.

Lemma Connection_ids_in_order remoteId : ids_in_order (Connection remoteId).
Proof.
  unfold ids_in_order. simpl. split_and!; [done | intros l; lia |].
  intros l c. by rewrite lookup_empty.
Qed.

(** The identity that the constructor gives is the value of the
    counter, and [call] leaves the Call that carries it in the heap. *)
Lemma constructed_id_counter method params timeout now w :
  constructed_id method params timeout now w = Call_Counter w.
Proof.
  unfold constructed_id, new_Call, id_of. simpl.
  by rewrite lookup_insert_eq.
Qed.

Lemma call_constructs method params timeout now w :
  allocated (call method params timeout now w) = N.succ (allocated w)
  ∧ ∃ c, objects (call method params timeout now w) !! allocated w = Some c
         ∧ Call.id c = constructed_id method params timeout now w.
Proof.
  pose proof (step_same_calls (Invoke method params timeout now) w)
    as (_ & Ha & Ho).
  simpl in Ha, Ho. split; [by rewrite Ha|].
  specialize (Ho (allocated w)). unfold registered in Ho. simpl in Ho.
  rewrite lookup_insert_eq in Ho. inversion Ho as [? c Hs Hx Hy|]; subst.
  exists c. split; [done|].
  by rewrite (method_steps_id _ _ Hs), constructed_id_counter.
Qed.

Lemma sorted_ranks (start n : nat) :
  StronglySorted Z.lt (Z.of_nat <$> seq start n).
Proof.
  revert start. induction n as [|n IH]; intros start; simpl; constructor.
  - apply IH.
  - apply Forall_forall. intros x Hx.
    apply list_elem_of_fmap in Hx as (k & -> & Hk).
    apply elem_of_seq in Hk. lia.
Qed.

(** The identities of a run, from a state where the Calls are in
    order: each is the number of Calls created before it, as long as
    the counter counts exactly. *)
Lemma identities_spec evs w :
  ids_in_order w →
  identities evs w
  = (fun k => Z.min (Z.of_N (allocated w) + Z.of_nat k) (2 ^ 53))
      <$> seq 0 (length (identities evs w))
  ∧ allocated (after evs w)
    = (allocated w + N.of_nat (length (identities evs w)))%N
  ∧ ((run evs w).1 = Ok tt → length (identities evs w) = invocations evs).
Proof.
  revert w. induction evs as [|ev evs IH]; intros w Hids.
  - simpl. split_and!; [done | unfold after; simpl; lia | done].
  - pose proof (step_ids_in_order ev w Hids) as Hids'.
    pose proof (step_same_calls ev w) as (_ & Ha & _).
    rewrite after_cons. cbn [identities run]. unfold mbind, M_bind, bind.
    destruct ev as [method params timeout now|err data buf|ref| |msg].
    + change (step (Invoke method params timeout now) w)
        with (Ok tt, call method params timeout now w) in *.
      cbn [fst snd] in *. destruct (IH _ Hids') as (Hl & Hal & Hn). clear IH.
      assert (Ha' : allocated (call method params timeout now w)
                    = N.succ (allocated w)) by exact Ha.
      rewrite Ha' in Hl, Hal.
      split_and!.
      * rewrite constructed_id_counter. destruct Hids as (-> & _).
        cbn [app length seq fmap list_fmap].
        f_equal; [f_equal; lia|].
        rewrite Hl at 1. rewrite <- fmap_S_seq, <- list_fmap_compose.
        apply list_fmap_ext. intros _ k _. simpl. f_equal. lia.
      * rewrite Hal. cbn [app length]. lia.
      * intros Hok. unfold invocations in *. rewrite filter_cons_True by done.
        cbn [app length]. f_equal. by apply Hn.
    + assert (Ha' : allocated (step (Receive err data buf) w).2 = allocated w)
        by exact Ha.
      destruct (step (Receive err data buf) w) as [[[]|e] w'] eqn:Hst;
        cbn [fst snd] in *.
      * destruct (IH _ Hids') as (Hl & Hal & Hn). rewrite Ha' in Hl, Hal.
        split_and!; [done | done |].
        intros Hok. unfold invocations in *.
        rewrite filter_cons_False by done. by apply Hn.
      * split_and!; [done | rewrite Ha'; cbn [length]; lia | done].
    + assert (Ha' : allocated (step (TimerFires ref) w).2 = allocated w)
        by exact Ha.
      destruct (step (TimerFires ref) w) as [[[]|e] w'] eqn:Hst;
        cbn [fst snd] in *.
      * destruct (IH _ Hids') as (Hl & Hal & Hn). rewrite Ha' in Hl, Hal.
        split_and!; [done | done |].
        intros Hok. unfold invocations in *.
        rewrite filter_cons_False by done. by apply Hn.
      * split_and!; [done | rewrite Ha'; cbn [length]; lia | done].
    + assert (Ha' : allocated (step SocketClose w).2 = allocated w)
        by exact Ha.
      destruct (step SocketClose w) as [[[]|e] w'] eqn:Hst;
        cbn [fst snd] in *.
      * destruct (IH _ Hids') as (Hl & Hal & Hn). rewrite Ha' in Hl, Hal.
        split_and!; [done | done |].
        intros Hok. unfold invocations in *.
        rewrite filter_cons_False by done. by apply Hn.
      * split_and!; [done | rewrite Ha'; cbn [length]; lia | done].
    + assert (Ha' : allocated (step (SocketError msg) w).2 = allocated w)
        by exact Ha.
      destruct (step (SocketError msg) w) as [[[]|e] w'] eqn:Hst;
        cbn [fst snd] in *.
      * destruct (IH _ Hids') as (Hl & Hal & Hn). rewrite Ha' in Hl, Hal.
        split_and!; [done | done |].
        intros Hok. unfold invocations in *.
        rewrite filter_cons_False by done. by apply Hn.
      * split_and!; [done | rewrite Ha'; cbn [length]; lia | done].
Qed.

(** C8. In a process that starts with a fresh [Call_Counter], along
    any run of calls, responses, timers and socket events, and as
    long as the counter is inside the range where JavaScript numbers
    count exactly (at most [2^53] Calls created): the identities that
    the constructor gives, in the order of construction, are 0, 1, 2,
    ..., one for each call of a run that no exception cuts short;
    they strictly increase and none is given twice; the Call that
    takes the k-th identity is the k-th object created and still
    carries it at the end of the run; the Call objects are all there,
    the identity of each is its rank in the order of creation, so
    that the identities strictly increase from one Call to any later
    one and no two Calls share one; and the counter is the identity
    that the next Call will take. *)
Theorem call_ids_strictly_increase (remoteId : RemoteId) (evs : list Event) :
  let w := after evs (Connection remoteId) in
  let ids := identities evs (Connection remoteId) in
  Z.of_N (allocated w) ≤ 2 ^ 53 →
  Call_Counter w = Z.of_N (allocated w)
  ∧ (∀ l, (l < allocated w)%N →
          ∃ c, objects w !! l = Some c ∧ Call.id c = Z.of_N l)
  ∧ (∀ l1 l2 c1 c2,
       objects w !! l1 = Some c1 → objects w !! l2 = Some c2 →
       ((l1 < l2)%N → Call.id c1 < Call.id c2)
       ∧ (l1 ≠ l2 → Call.id c1 ≠ Call.id c2))
  ∧ allocated w = N.of_nat (length ids)
  ∧ ((run evs (Connection remoteId)).1 = Ok tt →
     length ids = invocations evs)
  ∧ ids = Z.of_nat <$> seq 0 (length ids)
  ∧ StronglySorted Z.lt ids
  ∧ NoDup ids
  ∧ (∀ k ident, ids !! k = Some ident →
       ∃ c, objects w !! N.of_nat k = Some c ∧ Call.id c = ident)
  ∧ (∀ method params timeout now,
       let w1 := call method params timeout now w in
       Z.of_N (allocated w1) ≤ 2 ^ 53 →
       constructed_id method params timeout now w = Z.of_nat (length ids)
       ∧ Forall (fun ident => ident < constructed_id method params timeout now w)
           ids
       ∧ ∃ c, objects w1 !! allocated w = Some c
              ∧ Call.id c = constructed_id method params timeout now w).
Proof.
  intros w ids Hbound.
  assert (Hinv : ids_in_order w).
  { apply (after_invariant ids_in_order); [apply step_ids_in_order|].
    apply Connection_ids_in_order. }
  destruct (identities_spec evs (Connection remoteId)
              (Connection_ids_in_order remoteId)) as (Hl & Hal & Hn).
  fold ids in Hl, Hal, Hn. fold w in Hal. simpl in Hal, Hl.
  assert (Hal' : allocated w = N.of_nat (length ids)) by lia.
  assert (Hids : ids = Z.of_nat <$> seq 0 (length ids)).
  { rewrite Hl at 1. apply list_fmap_ext. intros i k Hk.
    apply lookup_seq in Hk as [-> Hk]. lia. }
  destruct Hinv as (Hcnt & Hall & Hid).
  assert (Hobj : ∀ l, (l < allocated w)%N →
                      ∃ c, objects w !! l = Some c ∧ Call.id c = Z.of_N l).
  { intros l Hlt. destruct (Hall l Hlt) as [c Hc]. exists c. split; [done|].
    destruct (Hid l c Hc) as [_ ->]. lia. }
  split_and!; try done.
  - rewrite Hcnt. lia.
  - intros l1 l2 c1 c2 H1 H2.
    destruct (Hid l1 c1 H1) as [Hl1 ->], (Hid l2 c2 H2) as [Hl2 ->].
    split; intros; lia.
  - rewrite Hids. apply sorted_ranks.
  - rewrite Hids. apply NoDup_fmap_2; [|apply NoDup_seq].
    intros x y. apply Nat2Z.inj.
  - intros k ident Hk. rewrite Hids, list_lookup_fmap in Hk.
    destruct (seq 0 (length ids) !! k) as [k'|] eqn:Hk'; [|done].
    apply lookup_seq in Hk' as [-> Hlt]. simpl in Hk. injection Hk as <-.
    destruct (Hobj (N.of_nat k)) as (c & Hc & Hidc); [lia|].
    exists c. split; [done|]. rewrite Hidc. lia.
  - intros method params timeout now w1 Hb1.
    destruct (call_constructs method params timeout now w) as (Ha1 & c & Hc & Hidc).
    rewrite constructed_id_counter in *.
    assert (Hcw : Call_Counter w = Z.of_nat (length ids)) by (rewrite Hcnt; lia).
    split_and!; [done | | by exists c].
    rewrite Hcw, Hids. apply Forall_forall. intros x Hx.
    apply list_elem_of_fmap in Hx as (k & -> & Hk).
    apply elem_of_seq in Hk. rewrite length_fmap, length_seq. lia.
Qed.

(** C9, amended. A call issued through [call] whose effective timeout
    (the argument, or the default of the connection when the
    argument is missing or zero) is not positive, as is the case for
    every negative argument: no timer is started for the new Call,
    and along any run that follows the Call has no timer and is never
    notified of a deadline error. *)
Theorem call_without_deadline_never_times_out
    method params (timeout : option Z) now w (evs : list Event) :
  effective_timeout timeout w ≤ 0 →
  let w1 := call method params timeout now w in
  (∀ t, timeout = Some t → t < 0 → effective_timeout timeout w = t)
  ∧ (∃ c, objects w1 !! allocated w = Some c
          ∧ Call.id c = Call_Counter w
          ∧ Call.timer c = None)
  ∧ (∃ c, objects (after evs w1) !! allocated w = Some c
          ∧ Call.timer c = None
          ∧ Call.timer_active c = false
          ∧ ¬ timed_out c).
Proof.
  intros Htmo w1.
  set (c0 := Call.create (Call_Counter w) (mkInvocation method params)
               (effective_timeout timeout w) now).
  assert (Hc0 : no_deadline c0).
  { unfold no_deadline, c0. simpl.
    destruct (Z.ltb_spec 0 (effective_timeout timeout w)); [lia|].
    split_and!; [done | done |]. intros e v Hin. by apply elem_of_nil in Hin. }
  assert (Hreg : objects (registered method params timeout now w)
                   !! allocated w = Some c0).
  { unfold registered. simpl. apply lookup_insert_eq. }
  assert (Hsame1 : same_calls (registered method params timeout now w) w1)
    by apply (step_same_calls (Invoke method params timeout now) w).
  assert (Hnd1 : no_deadline_at (allocated w) w1).
  { eapply same_calls_no_deadline_at; [exact Hsame1|].
    split; [unfold registered; simpl; lia|]. by exists c0. }
  split_and!.
  - intros t -> Ht. unfold effective_timeout. simpl.
    destruct (Z.eqb_spec t 0); [lia | done].
  - destruct Hsame1 as (_ & _ & Ho). specialize (Ho (allocated w)).
    rewrite Hreg in Ho. inversion Ho as [? c Hs Hx Hy|]; subst.
    destruct Hnd1 as (_ & c' & Hc' & (Ht & _)).
    assert (c' = c) as -> by congruence.
    exists c. split; [done|]. split; [|done].
    by rewrite (method_steps_id _ _ Hs).
  - assert (Hnd : no_deadline_at (allocated w) (after evs w1)).
    { apply (after_invariant (no_deadline_at (allocated w)));
        [apply step_no_deadline_at | exact Hnd1]. }
    destruct Hnd as (_ & c & Hc & Hn).
    exists c. split; [done|].
    pose proof (no_deadline_not_timed_out c Hn).
    destruct Hn as (Ht & _).
    split_and!; [done | by unfold Call.timer_active; rewrite Ht | done].
Qed.

End Runs.

Section LateResponses.

Context `{codec : Codec}.

(** The deadline does not remove a Call from the table: the handler
    of the timer only makes a method call on the Call object. *)
Lemma timer_keeps_the_table ref w :
  calls (step (TimerFires ref) w).2 = calls w.
Proof. reflexivity. Qed.

(** A response that arrives for a Call of the table that is already
    done (its deadline has passed) is handled without a second
    notification: the Call leaves the table, the late value is
    stored, and the next read is registered. *)
Lemma late_response_for_done_call (d : Prefix) buf w ref c
      (state : Z) (io1 io2 : list Z) (obj : Value) :
  ResponseFlag_isError (prefix_flag d) = false →
  ResponseFlag_isLength (prefix_flag d) = true →
  calls w !! prefix_id d = Some ref →
  objects w !! ref = Some c →
  Call.done c = true →
  io_readInt buf = Some (state, io1) →
  HbaseObjectWritable_readFields io1 = Some (obj, io2) →
  ∃ w' c',
    on_response None (Some d) buf w = (Ok tt, w')
    ∧ objects w' !! ref = Some c'
    ∧ Call.emitted c' = Call.emitted c
    ∧ Call.value c' = Some obj
    ∧ calls w' = delete (prefix_id d) (calls w)
    ∧ reading w' = true.
Proof.
  intros Herr Hlen Hid Href Hd Hint Hrf.
  eexists _, (Call.setValue obj c).
  unfold on_response. run_handler.
  rewrite Hid, Herr, Hlen. simpl. rewrite Hint. simpl. rewrite Hrf. simpl.
  split; [reflexivity|]. simpl.
  split_and!; try done.
  - rewrite lookup_alter, decide_True by done. by rewrite Href.
  - apply (complete_done_emitted (Call.Response obj)), Hd.
  - destruct c; simpl in *; subst; reflexivity.
Qed.

End LateResponses.

(** C3, on a frame for call id 7 while the table holds the calls 0 and
    1: a well-formed success frame whose payload decodes to "pong". *)
Lemma response_for_unknown_id_throws_witness :
  let frame := mkPrefix 7 2 18 in
  let payload := [0; 0; 0; 0; 4; 112; 111; 110; 103] in
  calls sample_world !! 7 = None
  ∧ ∃ w', on_response (codec := sample_codec) None (Some frame) payload
            sample_world
          = (Exn (TypeError "Cannot read property 'id' of undefined"), w')
          ∧ reading w' = false.
Proof.
  intros frame payload.
  destruct (response_for_unknown_id_throws (codec := sample_codec)
              None frame payload sample_world eq_refl)
    as (e & w' & Hrun & _ & Hrd & (He & _)).
  split; [reflexivity|]. exists w'.
  rewrite Hrun, (He eq_refl eq_refl eq_refl) by (by eexists).
  split; [reflexivity | exact Hrd].
Defined.

(** C5, on an error frame for the call 0 of [sample_world], whose
    payload holds the strings "A" and "BC". *)
Lemma error_response_completes_with_remote_error_witness :
  let frame := mkPrefix 0 3 18 in
  let payload := [0; 0; 0; 0; 1; 65; 2; 66; 67] in
  ∃ w' c',
    on_response (codec := sample_codec) None (Some frame) payload sample_world
    = (Ok tt, w')
    ∧ objects w' !! 0%N = Some c'
    ∧ Call.emitted c' = [(Some (RemoteException "A" "BC"), None)]
    ∧ closed w' = false.
Proof.
  intros frame payload.
  destruct (error_response_completes_with_remote_error (codec := sample_codec)
              frame payload sample_world 0%N
              (Call.create 0 (mkInvocation "echo" []) 5000 0)
              0 [1; 65; 2; 66; 67] [2; 66; 67] [] "A" "BC"
              eq_refl eq_refl eq_refl eq_refl eq_refl
              (create_wf _ _ _ _) eq_refl eq_refl eq_refl)
    as (w' & c' & Hrun & Hc' & He & _ & _ & _ & _ & _ & Hcl & _).
  exists w', c'. split_and!; [exact Hrun | exact Hc' | exact He | exact Hcl].
Defined.

(** C8, on two calls issued on a fresh connection, with the response
    to the first between them. *)
Lemma call_ids_strictly_increase_witness :
  let evs := [Invoke "echo" [] (Some 5000) 0;
              Receive None (Some (mkPrefix 0 2 18))
                [0; 0; 0; 0; 4; 112; 111; 110; 103];
              Invoke "get" [VString "row"] None 1] in
  let w := after (codec := sample_codec) evs (Connection sample_remote) in
  Z.of_N (allocated w) ≤ 2 ^ 53
  ∧ identities (codec := sample_codec) evs (Connection sample_remote) = [0; 1]
  ∧ (∃ c0, objects w !! 0%N = Some c0 ∧ Call.id c0 = 0)
  ∧ (∃ c1, objects w !! 1%N = Some c1 ∧ Call.id c1 = 1)
  ∧ constructed_id "put" [] None 2 w = 2.
Proof.
  intros evs w.
  assert (Hb : Z.of_N (allocated w) ≤ 2 ^ 53) by (vm_compute; discriminate).
  destruct (call_ids_strictly_increase (codec := sample_codec) sample_remote
              evs Hb)
    as (_ & _ & _ & _ & Hn & Hids & _ & _ & Hobj & Hnext).
  assert (Hlen : length (identities (codec := sample_codec) evs
                           (Connection sample_remote)) = 2%nat).
  { rewrite Hn; [reflexivity|]. vm_compute. reflexivity. }
  assert (Hlist : identities (codec := sample_codec) evs
                    (Connection sample_remote) = [0; 1]).
  { rewrite Hids, Hlen. reflexivity. }
  split; [exact Hb|]. split; [exact Hlist|]. split_and!.
  - apply (Hobj 0%nat 0). by rewrite Hlist.
  - apply (Hobj 1%nat 1). by rewrite Hlist.
  - destruct (Hnext "put" [] None 2) as (Hc & _).
    + vm_compute. discriminate.
    + etrans; [exact Hc|]. by rewrite Hlen.
Defined.

(** C9, as stated, fails for the timeout 0: [call] replaces it by the
    default of the connection, the timer is started, and when it fires
    the Call completes with a deadline error. *)
Lemma zero_timeout_starts_the_default_timer :
  let w1 := call (codec := sample_codec) "get" [] (Some 0) 0
              (Connection sample_remote) in
  let w2 := after (codec := sample_codec) [TimerFires 0%N] w1 in
  (∃ c, objects w1 !! 0%N = Some c
        ∧ Call.timeout c = 10000
        ∧ Call.timer c = Some Pending)
  ∧ (∃ c, objects w2 !! 0%N = Some c
          ∧ Call.emitted c
            = [(Some (RemoteCallTimeoutException "10000 ms timeout"), None)]
          ∧ timed_out c).
Proof.
  split.
  - eexists. split; [reflexivity|]. split; reflexivity.
  - eexists. split; [reflexivity|]. split; [reflexivity|].
    exists (RemoteCallTimeoutException "10000 ms timeout"), None.
    split; [|reflexivity]. vm_compute. left.
Qed.

(** C9 amended, on a call with the timeout -1, followed by an attempt
    of the timer and a socket error. *)
Lemma call_without_deadline_never_times_out_witness :
  let w := Connection sample_remote in
  let w1 := call (codec := sample_codec) "get" [] (Some (-1)) 0 w in
  effective_timeout (Some (-1)) w ≤ 0
  ∧ ∃ c, objects (after (codec := sample_codec)
                    [TimerFires 0%N; SocketError "read ECONNRESET"] w1)
           !! 0%N = Some c
         ∧ ¬ timed_out c.
Proof.
  intros w w1.
  assert (Ht : effective_timeout (Some (-1)) w ≤ 0) by (vm_compute; discriminate).
  destruct (call_without_deadline_never_times_out (codec := sample_codec)
              "get" [] (Some (-1)) 0 w
              [TimerFires 0%N; SocketError "read ECONNRESET"] Ht)
    as (_ & _ & (c & Hc & _ & _ & Hn)).
  split; [exact Ht|]. exists c. split; [exact Hc | exact Hn].
Defined.

(** * Further properties *)

(** ** The other paths of the response dispatch *)

Section DispatchPaths.

Context `{codec : Codec}.

Implicit Types (w : World) (ref : N) (c : Call.t) (d : Prefix).

(** Whatever happens next, the handler first takes the entry of the
    call id out of the table; it never touches the closed flag, the
    output, the events of the Connection or the counters. *)
Lemma on_response_table err d buf w :
  let w' := (on_response err (Some d) buf w).2 in
  calls w' = delete (prefix_id d) (calls w)
  ∧ closed w' = closed w
  ∧ written w' = written w
  ∧ events w' = events w
  ∧ rpcTimeout w' = rpcTimeout w.
Proof.
  unfold on_response. run_handler.
  repeat (case_match; simpl; simplify_eq; try done).
Qed.

(** X1. A response with the has-declared-length bit and without the
    error bit, for a Call that is outstanding in the table, whose
    payload holds the state word and one value: the handler returns
    normally, the Call leaves the table and completes with the decoded
    value and no error, its timer is disarmed, no other Call object
    changes, the Connection stays as it is and the next read is
    registered. *)
Theorem success_response_delivers_value
    d buf w ref c (state : Z) (io1 io2 : list Z) (obj : Value) :
  ResponseFlag_isError (prefix_flag d) = false →
  ResponseFlag_isLength (prefix_flag d) = true →
  calls w !! prefix_id d = Some ref →
  objects w !! ref = Some c →
  Call.done c = false →
  Call.wf c →
  io_readInt buf = Some (state, io1) →
  HbaseObjectWritable_readFields io1 = Some (obj, io2) →
  ∃ w' c',
    on_response None (Some d) buf w = (Ok tt, w')
    ∧ objects w' !! ref = Some c'
    ∧ Call.emitted c' = [(None, Some obj)]
    ∧ Call.done c' = true
    ∧ Call.value c' = Some obj
    ∧ Call.error c' = None
    ∧ Call.timer_active c' = false
    ∧ (∀ l, l ≠ ref → objects w' !! l = objects w !! l)
    ∧ calls w' = delete (prefix_id d) (calls w)
    ∧ closed w' = closed w
    ∧ ended w' = ended w
    ∧ events w' = events w
    ∧ written w' = written w
    ∧ reading w' = true.
Proof.
  intros Herr Hlen Hid Href Hd Hwf Hint Hrf.
  destruct (setValue_outstanding obj c Hd Hwf) as (He & Hd' & Ht).
  eexists _, (Call.setValue obj c).
  unfold on_response. run_handler.
  rewrite Hid, Herr, Hlen. simpl. rewrite Hint. simpl. rewrite Hrf. simpl.
  split; [reflexivity|]. simpl.
  split_and!; try done.
  - rewrite lookup_alter, decide_True by done. by rewrite Href.
  - destruct c; simpl in *; subst; reflexivity.
  - unfold Call.wf in Hwf. rewrite Hd in Hwf. destruct Hwf as (_ & Her & _).
    destruct c; simpl in *; subst; reflexivity.
  - intros l Hl. by rewrite lookup_alter, decide_False.
Qed.

(** X2. A response whose flag lacks the has-declared-length bit, for a
    Call that is outstanding in the table: whatever the payload, the
    Call leaves the table and fails with the RemoteException whose
    message names the flag, and the socket is ended; the closed flag is
    not set by this path, and the next read is not registered. *)
Theorem missing_length_flag_fails_call_and_ends_socket d buf w ref c :
  ResponseFlag_isLength (prefix_flag d) = false →
  calls w !! prefix_id d = Some ref →
  objects w !! ref = Some c →
  Call.done c = false →
  Call.wf c →
  let err := RemoteException "RemoteException"
               ("missing data length packet, flag: "
                ++ string_of_Z (prefix_flag d)) in
  ∃ w' c',
    on_response None (Some d) buf w = (Ok tt, w')
    ∧ objects w' !! ref = Some c'
    ∧ Call.emitted c' = [(Some err, None)]
    ∧ Call.done c' = true
    ∧ (∀ l, l ≠ ref → objects w' !! l = objects w !! l)
    ∧ calls w' = delete (prefix_id d) (calls w)
    ∧ ended w' = true
    ∧ closed w' = closed w
    ∧ events w' = events w
    ∧ reading w' = reading w.
Proof.
  intros Hlen Hid Href Hd Hwf err.
  destruct (setException_outstanding err c Hd Hwf) as (He & Hd' & _).
  eexists _, (Call.setException err c).
  unfold on_response. run_handler.
  rewrite Hid, Hlen. simpl.
  split; [reflexivity|]. simpl.
  split_and!; try done.
  - rewrite lookup_alter, decide_True by done. by rewrite Href.
  - intros l Hl. by rewrite lookup_alter, decide_False.
Qed.

(** X3. When the read of the prefix reports an error together with the
    fields read, for a Call that is outstanding in the table: whatever
    the flag and the payload, the Call leaves the table and fails with
    that error, and the socket is ended; the closed flag is not set by
    this path, and the next read is not registered. *)
Theorem prefix_read_error_fails_call_and_ends_socket (e : Err) d buf w ref c :
  calls w !! prefix_id d = Some ref →
  objects w !! ref = Some c →
  Call.done c = false →
  Call.wf c →
  ∃ w' c',
    on_response (Some e) (Some d) buf w = (Ok tt, w')
    ∧ objects w' !! ref = Some c'
    ∧ Call.emitted c' = [(Some e, None)]
    ∧ Call.done c' = true
    ∧ (∀ l, l ≠ ref → objects w' !! l = objects w !! l)
    ∧ calls w' = delete (prefix_id d) (calls w)
    ∧ ended w' = true
    ∧ closed w' = closed w
    ∧ events w' = events w
    ∧ reading w' = reading w.
Proof.
  intros Hid Href Hd Hwf.
  destruct (setException_outstanding e c Hd Hwf) as (He & Hd' & _).
  eexists _, (Call.setException e c).
  unfold on_response. run_handler.
  rewrite Hid. simpl.
  split; [reflexivity|]. simpl.
  split_and!; try done.
  - rewrite lookup_alter, decide_True by done. by rewrite Href.
  - intros l Hl. by rewrite lookup_alter, decide_False.
Qed.

(** What a success response does to the state, for a call of the
    table and a payload that decodes. *)
Lemma success_response_state d buf w ref (state : Z) (io1 io2 : list Z) obj :
  ResponseFlag_isError (prefix_flag d) = false →
  ResponseFlag_isLength (prefix_flag d) = true →
  calls w !! prefix_id d = Some ref →
  io_readInt buf = Some (state, io1) →
  HbaseObjectWritable_readFields io1 = Some (obj, io2) →
  on_response None (Some d) buf w
  = (Ok tt,
     set_reading true
       (on_call ref (Call.setValue obj)
          (set_calls (delete (prefix_id d) (calls w)) w))).
Proof.
  intros Herr Hlen Hid Hint Hrf. unfold on_response. run_handler.
  rewrite Hid, Herr, Hlen. simpl. rewrite Hint. simpl. rewrite Hrf. done.
Qed.

(** X4. Responses are matched to calls by id alone: two success
    responses for two different calls of the table can arrive in
    either order; both orders are handled normally and lead to the
    same state, in which each of the two Calls holds its own value. *)
Theorem responses_in_either_order
    d1 d2 buf1 buf2 w ref1 ref2 c1 c2
    (s1 s2 : Z) (io1 io1' io2 io2' : list Z) (v1 v2 : Value) :
  prefix_id d1 ≠ prefix_id d2 →
  ref1 ≠ ref2 →
  ResponseFlag_isError (prefix_flag d1) = false →
  ResponseFlag_isLength (prefix_flag d1) = true →
  ResponseFlag_isError (prefix_flag d2) = false →
  ResponseFlag_isLength (prefix_flag d2) = true →
  calls w !! prefix_id d1 = Some ref1 →
  calls w !! prefix_id d2 = Some ref2 →
  objects w !! ref1 = Some c1 →
  objects w !! ref2 = Some c2 →
  io_readInt buf1 = Some (s1, io1) →
  HbaseObjectWritable_readFields io1 = Some (v1, io1') →
  io_readInt buf2 = Some (s2, io2) →
  HbaseObjectWritable_readFields io2 = Some (v2, io2') →
  ∃ w',
    (on_response None (Some d1) buf1;; on_response None (Some d2) buf2) w
    = (Ok tt, w')
    ∧ (on_response None (Some d2) buf2;; on_response None (Some d1) buf1) w
      = (Ok tt, w')
    ∧ objects w' !! ref1 = Some (Call.setValue v1 c1)
    ∧ objects w' !! ref2 = Some (Call.setValue v2 c2)
    ∧ calls w' = delete (prefix_id d2) (delete (prefix_id d1) (calls w)).
Proof.
  intros Hids Hrefs He1 Hl1 He2 Hl2 Hc1 Hc2 Ho1 Ho2 Hi1 Hf1 Hi2 Hf2.
  eexists. unfold mbind, M_bind, bind.
  rewrite (success_response_state d1 buf1 w ref1 s1 io1 io1' v1) by done.
  rewrite (success_response_state d2 buf2 w ref2 s2 io2 io2' v2) by done.
  rewrite (success_response_state d2 buf2 _ ref2 s2 io2 io2' v2);
    [| done | done | by simpl; rewrite lookup_delete_ne | done | done].
  rewrite (success_response_state d1 buf1 _ ref1 s1 io1 io1' v1);
    [| done | done | by simpl; rewrite lookup_delete_ne | done | done].
  split; [reflexivity|]. simpl. split_and!.
  - do 2 f_equal. unfold on_call, set_reading, set_calls, set_objects. simpl.
    f_equal.
    + apply map_eq. intros l. rewrite !lookup_alter.
      repeat case_decide; simplify_eq; done.
    + apply delete_delete.
  - rewrite !lookup_alter. repeat case_decide; simplify_eq. by rewrite Ho1.
  - rewrite !lookup_alter. repeat case_decide; simplify_eq. by rewrite Ho2.
  - done.
Qed.

End DispatchPaths.

(** ** Calls on an open connection, deadlines *)

Section CallPaths.

Context `{codec : Codec}.

Implicit Types (w : World) (ref : N) (c : Call.t).

(** X5. On a Connection whose closed flag is not set, [call] creates
    one Call object, outstanding, with the identity of the counter and
    the effective timeout, armed with a timer exactly when that
    timeout is positive; it registers the Call under its identity
    beside the entries that the table already holds, increments the
    counter, and appends the request frame of the Call to the output;
    no other Call object changes and the Connection emits nothing. *)
Theorem call_registers_and_sends method params timeout now w :
  closed w = false →
  let w' := call method params timeout now w in
  let tmo := effective_timeout timeout w in
  let inv := Invocation_write (mkInvocation method params) in
  calls w' !! Call_Counter w = Some (allocated w)
  ∧ (∀ k, k ≠ Call_Counter w → calls w' !! k = calls w !! k)
  ∧ objects w' !! allocated w
    = Some (Call.mk (Call_Counter w) (mkInvocation method params) None None
              false now tmo (if 0 <? tmo then Some Pending else None) [])
  ∧ (∀ l, l ≠ allocated w → objects w' !! l = objects w !! l)
  ∧ Call_Counter w' = js_succ (Call_Counter w)
  ∧ allocated w' = N.succ (allocated w)
  ∧ written w'
    = written w ++ int_bytes (Z.of_nat (length inv) + 4)
      ++ int_bytes (Call_Counter w) ++ inv
  ∧ closed w' = false
  ∧ ended w' = ended w
  ∧ events w' = events w.
Proof.
  intros Hcl w' tmo inv. unfold w'. rewrite call_unfold, Hcl.
  set (c := Call.create (Call_Counter w) (mkInvocation method params) tmo now).
  pose proof (sendParam_written (allocated w) c
                (registered method params timeout now w)) as Hs.
  rewrite Hs by (unfold registered; simpl; apply lookup_insert_eq).
  unfold registered. simpl. split_and!; try done.
  - apply lookup_insert_eq.
  - intros k Hk. by rewrite lookup_insert_ne.
  - apply lookup_insert_eq.
  - intros l Hl. by rewrite lookup_insert_ne.
  - fold inv. repeat f_equal; lia.
Qed.

(** X6. The call id of a request frame survives the wire: when the
    identity of the Call fits a signed 32-bit integer, the bytes that
    [sendParam] appends are four length bytes, then four bytes that
    read back as the identity, then the invocation. *)
Theorem request_frame_id_round_trip ref c w :
  objects w !! ref = Some c →
  - 2 ^ 31 ≤ Call.id c < 2 ^ 31 →
  ∃ l3 l2 l1 l0 i3 i2 i1 i0,
    written (sendParam ref w)
    = written w
      ++ [l3; l2; l1; l0] ++ [i3; i2; i1; i0]
      ++ Invocation_write (Call.param c)
    ∧ int_of_bytes i3 i2 i1 i0 = Call.id c.
Proof.
  intros Href Hid.
  rewrite (sendParam_written ref c w Href). simpl.
  do 8 eexists. split; [reflexivity|].
  by apply int_of_bytes_int_bytes.
Qed.

(** X7. A call on a Connection whose closed flag is set runs the
    handler of 'close' again: the listeners of the Connection receive
    one more 'close' event for every such call, and the flag stays
    set. *)
Theorem call_on_closed_connection_emits_close method params timeout now w :
  closed w = true →
  let w' := call method params timeout now w in
  events w' = events w ++ ["close"]
  ∧ closed w' = true
  ∧ ended w' = ended w
  ∧ Call_Counter w' = js_succ (Call_Counter w).
Proof.
  intros Hcl w'. unfold w'. rewrite call_unfold, Hcl.
  unfold _handleClose, emit, registered. simpl.
  rewrite cleanupCalls_only_objects. simpl.
  split_and!; done.
Qed.

(** X8. When the timer of an outstanding Call fires, the Call
    completes with the deadline error that names its timeout, once;
    the timer is spent; the Call stays in the table, no other Call
    object changes, and the Connection is neither closed nor ended. *)
Theorem timer_completes_call_with_deadline_error ref c w :
  objects w !! ref = Some c →
  Call.timer c = Some Pending →
  Call.done c = false →
  Call.wf c →
  let err := RemoteCallTimeoutException
               (string_of_Z (Call.timeout c) ++ " ms timeout") in
  ∃ w' c',
    step (TimerFires ref) w = (Ok tt, w')
    ∧ objects w' !! ref = Some c'
    ∧ Call.emitted c' = [(Some err, None)]
    ∧ Call.done c' = true
    ∧ Call.error c' = Some err
    ∧ Call.timer c' = Some Expired
    ∧ Call.fire c' = c'
    ∧ (∀ l, l ≠ ref → objects w' !! l = objects w !! l)
    ∧ calls w' = calls w
    ∧ closed w' = closed w
    ∧ ended w' = ended w
    ∧ written w' = written w.
Proof.
  intros Href Ht Hd Hwf err.
  unfold Call.wf in Hwf. rewrite Hd in Hwf. destruct Hwf as (Hv & He & Hem).
  eexists _, (Call.fire c). split; [reflexivity|]. simpl.
  split_and!; try done.
  - rewrite lookup_alter, decide_True by done. by rewrite Href.
  - destruct c; simpl in *; subst; reflexivity.
  - destruct c; simpl in *; subst; reflexivity.
  - destruct c; simpl in *; subst; reflexivity.
  - destruct c; simpl in *; subst; reflexivity.
  - destruct c; simpl in *; subst; reflexivity.
  - intros l Hl. by rewrite lookup_alter, decide_False.
Qed.

(** X9. [get] and [put] cannot carry a timeout of their own: on an
    open Connection the Call that they create has the default timeout
    of the Connection, whatever it is, and the invocation of the
    method with the two arguments in order. *)
Theorem get_and_put_use_the_default_timeout (regionName x : Value) now w :
  closed w = false →
  (∃ c, objects (get regionName x now w) !! allocated w = Some c
        ∧ Call.timeout c = rpcTimeout w
        ∧ Call.param c = mkInvocation "get" [regionName; x]
        ∧ Call.timer_active c = (0 <? rpcTimeout w))
  ∧ (∃ c, objects (put regionName x now w) !! allocated w = Some c
          ∧ Call.timeout c = rpcTimeout w
          ∧ Call.param c = mkInvocation "put" [regionName; x]
          ∧ Call.timer_active c = (0 <? rpcTimeout w)).
Proof.
  intros Hcl. unfold get, put. rewrite !call_unfold, Hcl.
  unfold sendParam, registered. simpl. rewrite !lookup_insert_eq.
  split; eexists; (split; [reflexivity|]); simpl;
    (split_and!; [done | done |]);
    unfold Call.timer_active; simpl; by destruct (0 <? rpcTimeout w).
Qed.

End CallPaths.

(** ** The handshake *)

Section HandshakeFacts.

Context `{codec : Codec}.

Variable Text_writeString : string → list Z.

Lemma str_or_empty (a : option string) (b : string) :
  str_or (Some (str_or a b)) "" = str_or a b.
Proof.
  unfold str_or. destruct a as [s|].
  - destruct (String.eqb_spec s ""); [|by destruct (String.eqb_spec s "")].
    by destruct (String.eqb_spec b "").
  - by destruct (String.eqb_spec b "").
Qed.

(** X10. On 'connect' the Connection writes the four bytes of "hrpc",
    the version byte 3, the length of the header as a 32-bit integer
    and the header, which is the protocol name as [Text.writeString]
    encodes it (the empty string when there is none); it then
    registers the first read and emits 'connect', and touches neither
    the table nor the closed flag. For the header that the constructor
    builds, the name is the protocol of the remote or, when that is
    missing or empty, the default one. On a fresh Connection these are
    the first bytes written, and the frame of a first call follows
    them. *)
Theorem handshake_layout (h : ConnectionHeader) (w : World) :
  let hb := Text_writeString (str_or (protocol h) "") in
  let handshake := [104; 114; 112; 99] ++ [3]
                   ++ int_bytes (Z.of_nat (length hb)) ++ hb in
  let w' := on_connect Text_writeString h w in
  written w' = written w ++ handshake
  ∧ reading w' = true
  ∧ events w' = events w ++ ["connect"]
  ∧ calls w' = calls w
  ∧ objects w' = objects w
  ∧ closed w' = closed w
  ∧ (Z.of_nat (length hb) < 2 ^ 31 →
     int_of_bytes (byte_of (Z.of_nat (length hb)) 3)
       (byte_of (Z.of_nat (length hb)) 2) (byte_of (Z.of_nat (length hb)) 1)
       (byte_of (Z.of_nat (length hb)) 0)
     = Z.of_nat (length hb))
  ∧ (∀ remote_protocol default ticket,
       h = Connection_header remote_protocol default ticket →
       hb = Text_writeString (str_or remote_protocol default))
  ∧ (∀ remoteId method params timeout now,
       w = Connection remoteId →
       written (call method params timeout now w') 
       = handshake
         ++ int_bytes (Z.of_nat (length (Invocation_write
                                           (mkInvocation method params))) + 4)
         ++ int_bytes 0
         ++ Invocation_write (mkInvocation method params)).
Proof.
  intros hb handshake w'.
  assert (Hw : written w' = written w ++ handshake).
  { unfold w', on_connect, writeHeader, out_writeInt, out_writeByte, out_write,
      emit, ConnectionHeader_write. simpl.
    rewrite <- !app_assoc. reflexivity. }
  split_and!; try done.
  - intros Hlen. apply int_of_bytes_int_bytes. lia.
  - intros rp def ticket Hh. unfold hb. rewrite Hh.
    unfold Connection_header. cbn [protocol]. by rewrite str_or_empty.
  - intros remoteId method params timeout now Hfresh.
    destruct (call_on_open_connection method params timeout now w')
      as (_ & _ & Hwr); [by unfold w'; rewrite Hfresh|].
    rewrite Hwr, Hw.
    assert (Call_Counter w' = 0) as -> by (by unfold w'; rewrite Hfresh).
    assert (written w = []) as -> by (by rewrite Hfresh).
    reflexivity.
Qed.

End HandshakeFacts.

(** ** What every run keeps *)

Section RunFacts.

Context `{codec : Codec}.

Implicit Types (w : World) (ref l : N) (c : Call.t) (ev : Event).

Lemma method_steps_timer c c' :
  rtc method_step c c' →
  (Call.done c = true → Call.timer_active c = false) →
  (Call.done c' = true → Call.timer_active c' = false).
Proof.
  induction 1 as [|c c1 c2 Hs _ IH]; [done|]. intros Hc. apply IH. intros _.
  destruct Hs as [v c|e c _|c].
  - apply callComplete_inactive.
  - apply callComplete_inactive.
  - unfold Call.fire. destruct (Call.timer c) as [[]|] eqn:Ht.
    + apply callComplete_inactive.
    + unfold Call.timer_active. by rewrite Ht.
    + unfold Call.timer_active. by rewrite Ht.
    + unfold Call.timer_active. by rewrite Ht.
Qed.

Lemma same_calls_timers_ok w w' : same_calls w w' → timers_ok w → timers_ok w'.
Proof.
  intros (_ & _ & Ho) Hok l c' Hl. specialize (Ho l). rewrite Hl in Ho.
  inversion Ho as [c ? Hsteps Hx Hy|]; subst.
  eapply method_steps_timer; [done|]. by eapply Hok.
Qed.

Lemma step_timers_ok ev w : timers_ok w → timers_ok (step ev w).2.
Proof.
  intros Hw. eapply same_calls_timers_ok; [apply step_same_calls|].
  destruct ev; try done. intros l c. unfold registered. simpl.
  destruct (decide (l = allocated w)) as [->|Hne].
  - rewrite lookup_insert_eq. by intros [= <-].
  - rewrite lookup_insert_ne by done. apply Hw.
Qed.

(** X11. Along any run of a fresh process, every Call object is in one
    of two states: outstanding, with nothing stored and nothing
    delivered to its listeners; or done, with exactly one notification
    delivered and its timer no longer armed, so that the runtime
    firing the timer changes nothing. *)
Theorem every_call_is_notified_at_most_once
    (remoteId : RemoteId) (evs : list Event) (l : N) (c : Call.t) :
  objects (after evs (Connection remoteId)) !! l = Some c →
  (Call.done c = false
   ∧ Call.emitted c = [] ∧ Call.value c = None ∧ Call.error c = None)
  ∨ (Call.done c = true
     ∧ length (Call.emitted c) = 1%nat
     ∧ Call.timer_active c = false
     ∧ Call.fire c = c).
Proof.
  intros Hl.
  pose proof (run_calls_wf remoteId evs l c Hl) as Hwf.
  assert (Ht : timers_ok (after evs (Connection remoteId))).
  { apply (after_invariant timers_ok); [apply step_timers_ok|].
    intros l' c'. simpl. by rewrite lookup_empty. }
  specialize (Ht l c Hl). unfold Call.wf in Hwf.
  destruct (Call.done c); [right | left; tauto].
  split_and!; try done; [by apply Ht|].
  specialize (Ht eq_refl). unfold Call.fire, Call.timer_active in *.
  by destruct (Call.timer c) as [[]|].
Qed.

Lemma step_frame_when_closed ev w :
  closed w = true →
  closed (step ev w).2 = true
  ∧ written (step ev w).2 = written w
  ∧ (calls w = ∅ → calls (step ev w).2 = ∅).
Proof.
  intros Hcl. destruct ev as [method params timeout now|err data buf|ref| |msg].
  - simpl. rewrite call_unfold, Hcl. unfold _handleClose, emit, registered.
    simpl. rewrite cleanupCalls_only_objects. done.
  - simpl. unfold mbind, M_bind, bind, modify. destruct data as [d|].
    + pose proof (on_response_table (TransportError <$> err) d buf
                    (set_reading false w)) as (Hc & Hcl' & Hw & _).
      destruct (on_response _ _ _ _) as [[[]|e] w']; simpl in *;
        (split_and!; [congruence | done |]);
        intros He; rewrite Hc, He; apply delete_empty.
    + done.
  - done.
  - simpl. unfold _handleClose, emit. simpl.
    rewrite cleanupCalls_only_objects. done.
  - simpl. unfold _handleError. rewrite cleanupCalls_only_objects. done.
Qed.

(** X12. The closed state is terminal: once the closed flag is set, no
    run clears it and no run writes another byte to the socket; and
    if the table is empty it is empty again after every event, as a
    call issued then is failed before [call] returns. *)
Theorem closed_is_terminal (evs : list Event) (w : World) :
  closed w = true →
  closed (after evs w) = true
  ∧ written (after evs w) = written w
  ∧ (calls w = ∅ → calls (after evs w) = ∅).
Proof.
  intros Hcl.
  pose proof (after_invariant
                (fun w' => closed w' = true ∧ written w' = written w
                           ∧ (calls w = ∅ → calls w' = ∅))) as Hinv.
  apply Hinv; [|done].
  intros ev w0 (Hc0 & Hw0 & He0).
  destruct (step_frame_when_closed ev w0 Hc0) as (? & ? & ?).
  split_and!; [done | congruence | auto].
Qed.

Lemma step_rpcTimeout ev w : rpcTimeout (step ev w).2 = rpcTimeout w.
Proof.
  destruct ev as [method params timeout now|err data buf|ref| |msg].
  - simpl. rewrite call_unfold. destruct (closed w).
    + unfold _handleClose, emit. simpl. by rewrite cleanupCalls_only_objects.
    + done.
  - simpl. unfold mbind, M_bind, bind, modify. destruct data as [d|]; [|done].
    pose proof (on_response_table (TransportError <$> err) d buf
                  (set_reading false w)) as (_ & _ & _ & _ & Hr).
    by destruct (on_response _ _ _ _) as [[[]|e] w'].
  - done.
  - simpl. unfold _handleClose, emit. simpl. by rewrite cleanupCalls_only_objects.
  - simpl. unfold _handleError. by rewrite cleanupCalls_only_objects.
Qed.

Lemma method_steps_timeout c c' :
  rtc method_step c c' → Call.timeout c' = Call.timeout c.
Proof.
  induction 1 as [|c c1 c2 Hs _ IH]; [done|]. rewrite IH.
  destruct Hs as [v c|e c _|c].
  - by destruct c as [? ? ? ? [] ? ? ? ?].
  - by destruct c as [? ? ? ? [] ? ? ? ?].
  - by destruct c as [? ? ? ? [] ? ? [[]|] ?].
Qed.

(** X13. The default deadline. Along any run of a fresh process, on
    an open and on a closed Connection alike, the timeout of the
    Connection is the one the constructor chose, the timeout
    configured for the remote or 10000 ms when that is missing or
    zero; it is never 0, a negative configured timeout is kept, and
    [call] does not change it. The effective timeout of a call is
    never 0 either, it is the timeout of the Connection when the
    argument is missing or zero, and it is the timeout that the new
    Call carries. When the configured timeout is missing or not
    negative, the timeout of the Connection is positive, and then
    every call with a timeout argument that is missing or not
    negative gets a positive timeout and, on the open Connection, an
    armed timer. *)
Theorem default_timeout_arms_every_call
    (remoteId : RemoteId) (evs : list Event) method params timeout now :
  let w := after evs (Connection remoteId) in
  let w1 := call method params timeout now w in
  rpcTimeout w = js_or (remote_rpcTimeout remoteId) 10000
  ∧ rpcTimeout w ≠ 0
  ∧ rpcTimeout w1 = rpcTimeout w
  ∧ (∀ t, remote_rpcTimeout remoteId = Some t → t ≠ 0 → rpcTimeout w = t)
  ∧ (remote_rpcTimeout remoteId = None ∨ remote_rpcTimeout remoteId = Some 0 →
     rpcTimeout w = 10000)
  ∧ effective_timeout timeout w ≠ 0
  ∧ (timeout = None ∨ timeout = Some 0 →
     effective_timeout timeout w = rpcTimeout w)
  ∧ (∃ c, objects w1 !! allocated w = Some c
          ∧ Call.timeout c = effective_timeout timeout w)
  ∧ ((∀ t, remote_rpcTimeout remoteId = Some t → 0 ≤ t) →
     0 < rpcTimeout w
     ∧ ((∀ t, timeout = Some t → 0 ≤ t) →
        0 < effective_timeout timeout w
        ∧ (closed w = false →
           ∃ c, objects w1 !! allocated w = Some c
                ∧ Call.timeout c = effective_timeout timeout w
                ∧ Call.timer c = Some Pending
                ∧ Call.done c = false))).
Proof.
  intros w w1.
  assert (Hr : rpcTimeout w = js_or (remote_rpcTimeout remoteId) 10000).
  { apply (after_invariant
             (fun w' => rpcTimeout w' = js_or (remote_rpcTimeout remoteId) 10000));
      [|done]. intros ev w0 <-. apply step_rpcTimeout. }
  assert (Hnz : rpcTimeout w ≠ 0).
  { rewrite Hr. unfold js_or. destruct (remote_rpcTimeout remoteId) as [t|];
      [|lia]. destruct (Z.eqb_spec t 0); lia. }
  assert (Hez : effective_timeout timeout w ≠ 0).
  { unfold effective_timeout, js_or. destruct timeout as [t|]; [|done].
    by destruct (Z.eqb_spec t 0). }
  split_and!; try done.
  - apply (step_rpcTimeout (Invoke method params timeout now) w).
  - intros t Ht Hnz'. rewrite Hr, Ht. unfold js_or.
    by destruct (Z.eqb_spec t 0).
  - intros [Hn|Hn]; by rewrite Hr, Hn.
  - intros [->| ->]; reflexivity.
  - pose proof (step_same_calls (Invoke method params timeout now) w)
      as (_ & _ & Ho).
    specialize (Ho (allocated w)). simpl in Ho. unfold registered in Ho.
    simpl in Ho. rewrite lookup_insert_eq in Ho.
    inversion Ho as [? c Hs Hx Hy|]; subst.
    exists c. split; [done|]. by rewrite (method_steps_timeout _ _ Hs).
  - intros Hremote.
    assert (Hpos : 0 < rpcTimeout w).
    { rewrite Hr. unfold js_or. destruct (remote_rpcTimeout remoteId) as [t|];
        [|lia]. specialize (Hremote t eq_refl).
        destruct (Z.eqb_spec t 0); lia. }
    split; [done|]. intros Harg.
    assert (Heff : 0 < effective_timeout timeout w).
    { unfold effective_timeout, js_or. destruct timeout as [t|]; [|done].
      specialize (Harg t eq_refl). destruct (Z.eqb_spec t 0); lia. }
    split; [done|]. intros Hcl. unfold w1.
    rewrite call_unfold, Hcl. unfold sendParam, registered. simpl.
    rewrite lookup_insert_eq. eexists. split; [reflexivity|]. simpl.
    split_and!; try done.
    destruct (Z.ltb_spec 0 (effective_timeout timeout w)); [done | lia].
Qed.

End RunFacts.

(** ** The table along a run *)

Section TableFacts.

Context `{codec : Codec}.

Implicit Types (w : World) (ref l : N) (c : Call.t) (ev : Event).

(** No handler adds an entry to the table, but [call] for its own
    Call. *)
Lemma step_calls_subseteq ev w : calls (step ev w).2 ⊆ calls (entered ev w).
Proof.
  destruct ev as [method params timeout now|err data buf|ref| |msg]; simpl.
  - rewrite call_unfold. destruct (closed w).
    + unfold _handleClose, emit. simpl. rewrite cleanupCalls_only_objects.
      apply map_empty_subseteq.
    + done.
  - unfold mbind, M_bind, bind, modify. destruct data as [d|]; [|done].
    pose proof (on_response_table (TransportError <$> err) d buf
                  (set_reading false w)) as (Hc & _).
    destruct (on_response _ _ _ _) as [[[]|e] w']; simpl in *;
      rewrite Hc; apply delete_subseteq.
  - done.
  - unfold _handleClose, emit. simpl. rewrite cleanupCalls_only_objects.
    apply map_empty_subseteq.
  - unfold _handleError. rewrite cleanupCalls_only_objects.
    apply map_empty_subseteq.
Qed.

Lemma registered_table_ok method params timeout now w :
  table_ok w → table_ok (registered method params timeout now w).
Proof.
  intros Hok id l. unfold registered. simpl.
  destruct (decide (id = Call_Counter w)) as [->|Hne].
  - rewrite lookup_insert_eq. intros [= <-]. split; [lia|].
    rewrite lookup_insert_eq. by eexists.
  - rewrite lookup_insert_ne by done. intros Hl.
    destruct (Hok id l Hl) as (Hlt & c & Hc & Hid).
    split; [lia|]. exists c. rewrite lookup_insert_ne by lia. done.
Qed.

Lemma step_table_ok ev w : table_ok w → table_ok (step ev w).2.
Proof.
  intros Hok.
  assert (Hen : table_ok (entered ev w))
    by (destruct ev; try done; by apply registered_table_ok).
  pose proof (step_same_calls ev w) as (_ & Ha & Ho).
  pose proof (step_calls_subseteq ev w) as Hsub.
  change (match ev with
          | Invoke method params timeout now =>
              registered method params timeout now w
          | _ => w
          end) with (entered ev w) in *.
  intros id l Hl.
  eapply lookup_weaken in Hl; [|exact Hsub].
  destruct (Hen id l Hl) as (Hlt & c & Hc & Hid).
  split; [by rewrite Ha|]. specialize (Ho l). rewrite Hc in Ho.
  inversion Ho as [? c' Hsteps Hx Hy|]; subst.
  exists c'. split; [done|]. by apply method_steps_id.
Qed.

(** X14. Along any run of a fresh process the table only holds Call
    objects under their own identity: every key denotes an existing
    Call object whose identity is the key, so that two keys never
    denote the same Call. *)
Theorem table_keys_are_call_ids (remoteId : RemoteId) (evs : list Event) :
  let w := after evs (Connection remoteId) in
  (∀ id l, calls w !! id = Some l →
           ∃ c, objects w !! l = Some c ∧ Call.id c = id)
  ∧ (∀ id1 id2 l, calls w !! id1 = Some l → calls w !! id2 = Some l →
                  id1 = id2).
Proof.
  intros w.
  assert (Hok : table_ok w).
  { apply (after_invariant table_ok); [apply step_table_ok|].
    intros id l. simpl. by rewrite lookup_empty. }
  split.
  - intros id l Hl. by destruct (Hok id l Hl) as (_ & Hc).
  - intros id1 id2 l H1 H2.
    destruct (Hok id1 l H1) as (_ & c1 & Hc1 & <-).
    destruct (Hok id2 l H2) as (_ & c2 & Hc2 & <-). congruence.
Qed.

Lemma fire_not_done c : Call.done (Call.fire c) = false → Call.fire c = c.
Proof.
  unfold Call.fire. destruct (Call.timer c) as [[]|]; try done.
  unfold Call._handleTimeoutit, Call.setException.
  by rewrite callComplete_is_done.
Qed.

(** What [_cleanupCalls] does to one Call object. *)
Lemma cleanupCalls_cases err w l c' :
  objects (_cleanupCalls err w) !! l = Some c' →
  ∃ c, objects w !! l = Some c
       ∧ ((c' = Call.setException err c ∧ ∃ id, calls w !! id = Some l)
          ∨ (c' = c ∧ ∀ id, calls w !! id ≠ Some l)).
Proof.
  unfold _cleanupCalls. rewrite fail_each_lookup. simpl.
  case_decide as Hex.
  - destruct (objects w !! l) as [c|] eqn:Hc; [|done]. simpl. intros [= <-].
    exists c. split; [done|]. left. split; [done|].
    apply Exists_exists in Hex as (id & _ & Hid). by exists id.
  - intros Hc. exists c'. split; [done|]. right. split; [done|].
    intros id Hid. apply Hex, Exists_exists. exists id. split; [|done].
    apply elem_of_for_in. by exists l.
Qed.

(** After a drain of a state where every outstanding Call is in the
    table, every Call is done. *)
Lemma cleanupCalls_all_done err w l c' :
  tracked w → objects (_cleanupCalls err w) !! l = Some c' →
  Call.done c' = true.
Proof.
  intros Htr Hl.
  destruct (cleanupCalls_cases err w l c' Hl) as (c & Hc & [[-> _]|[-> Hno]]).
  - apply callComplete_is_done.
  - destruct (Call.done c) eqn:Hd; [done|].
    by destruct (Hno _ (Htr l c Hc Hd)).
Qed.

(** The handler of a response is its two callbacks, one right after
    the other. *)
Lemma on_response_split err data buf w :
  on_response err data buf w
  = (a ← on_prefix err data;
     match a with
     | Some a => on_payload a buf
     | None => mret tt
     end) w.
Proof.
  unfold on_response, on_prefix, on_payload. run_handler.
  repeat (case_match; simpl in *; simplify_eq; try done).
Qed.

(** The callback of [readFields], when it returns normally: the entry
    of the call id has left the table, and either the callback of
    [readBytes] is registered for the Call that was looked up and no
    Call object has changed, or the Call has been completed. *)
Lemma on_prefix_ok err data w r w' :
  on_prefix err data w = (Ok r, w') →
  ∃ d,
    data = Some d
    ∧ calls w' = delete (prefix_id d) (calls w)
    ∧ allocated w' = allocated w
    ∧ ((r = Some (mkAwaited (calls w !! prefix_id d)
                    (ResponseFlag_isError (prefix_flag d)))
        ∧ objects w' = objects w
        ∧ closed w' = closed w ∧ ended w' = ended w ∧ err = None
        ∧ ResponseFlag_isLength (prefix_flag d) = true)
       ∨ (r = None
          ∧ ∃ ref f, calls w !! prefix_id d = Some ref
                     ∧ (∀ c, Call.done (f c) = true)
                     ∧ objects w' = alter f ref (objects w))).
Proof.
  unfold on_prefix. run_handler.
  repeat (case_match; simpl in *; simplify_eq; try done);
    intros [= <- <-]; eexists; (split_and!; [done | done | done |]).
  - right. split; [done|]. eexists _, _. split_and!; [done | | done].
    intros c0. apply callComplete_is_done.
  - right. split; [done|]. eexists _, _. split_and!; [done | | done].
    intros c0. apply callComplete_is_done.
  - left. split_and!; try done. by destruct (ResponseFlag_isLength _).
Qed.

(** The callback of [readBytes], when it returns normally: it has
    completed the Call that it holds, and touched nothing else. *)
Lemma on_payload_ok a buf w w' :
  on_payload a buf w = (Ok tt, w') →
  ∃ ref f, awaited_call a = Some ref
           ∧ (∀ c, Call.done (f c) = true)
           ∧ objects w' = alter f ref (objects w)
           ∧ calls w' = calls w
           ∧ allocated w' = allocated w.
Proof.
  unfold on_payload. run_handler.
  repeat (case_match; simpl in *; simplify_eq; try done);
    intros [= <-]; eexists _, _; (split_and!; [done | | done | done | done]);
    intros c0; apply callComplete_is_done.
Qed.

Lemma same_calls_on_prefix (err : option Err) data w :
  (∀ e, err = Some e → is_timeout_error e = false) →
  same_calls w (on_prefix err data w).2.
Proof.
  intros Hne. unfold on_prefix. run_handler.
  assert (Hcall : ∀ ref f w0,
             (∀ c, method_step c (f c)) → objects w0 = objects w →
             Call_Counter w0 = Call_Counter w → allocated w0 = allocated w →
             same_calls w (on_call ref f w0)).
  { intros ref f w0 Hf Ho Hc Ha.
    eapply same_calls_trans; [by apply (same_calls_frame w w0)|].
    by apply same_calls_on_call. }
  repeat (case_match; simpl; simplify_eq);
    try (by apply same_calls_frame).
  all: cbn [snd]; unfold _close.
  all: eapply same_calls_trans; [|by apply same_calls_frame].
  all: apply Hcall; [|done..].
  all: intros c0; constructor; by eauto.
Qed.

Lemma same_calls_on_payload a buf w : same_calls w (on_payload a buf w).2.
Proof.
  unfold on_payload. run_handler.
  repeat (case_match; simpl; simplify_eq);
    try (by apply same_calls_frame).
  all: cbn [snd]; unfold _nextResponse.
  all: eapply same_calls_trans; [|by apply same_calls_frame].
  all: apply same_calls_on_call.
  all: intros c0; by constructor.
Qed.

(** Every occurrence but a call leaves the Call objects in place; a
    call creates one object and then does the same. *)
Lemma occur_same_calls o p :
  same_calls (entered_process o (world p)) (world (occur o p).2).
Proof.
  destruct o as [method params timeout now|err data|buf|ref| |msg];
    unfold occur, in_process.
  - pose proof (step_same_calls (Invoke method params timeout now) (world p)).
    by destruct (step _ _) as [r w'].
  - destruct (awaiting p); [apply same_calls_refl|].
    unfold mbind, M_bind, bind, modify. simpl.
    pose proof (same_calls_on_prefix (TransportError <$> err) data
                  (set_reading false (world p))) as Hs.
    assert (Hok : same_calls (world p)
                    (on_prefix (TransportError <$> err) data
                       (set_reading false (world p))).2).
    { eapply same_calls_trans;
        [by apply (same_calls_frame _ (set_reading false (world p)))|].
      apply Hs. intros e0 He0. destruct err; by simplify_eq/=. }
    by destruct (on_prefix _ _ _) as [[?|?] w'].
  - destruct (awaiting p) as [a|]; [|apply same_calls_refl].
    pose proof (same_calls_on_payload a buf (world p)).
    by destruct (on_payload _ _ _) as [r w'].
  - pose proof (step_same_calls (TimerFires ref) (world p)).
    by destruct (step _ _) as [r w'].
  - pose proof (step_same_calls SocketClose (world p)).
    by destruct (step _ _) as [r w'].
  - pose proof (step_same_calls (SocketError msg) (world p)).
    by destruct (step _ _) as [r w'].
Qed.

Lemma occur_ids_in_order o p :
  ids_in_order (world p) → ids_in_order (world (occur o p).2).
Proof.
  intros Hw. eapply same_calls_ids_in_order; [apply occur_same_calls|].
  destruct o; try done. by apply registered_ids_in_order.
Qed.

Lemma allocated_occur o p :
  (allocated (world p) ≤ allocated (world (occur o p).2))%N.
Proof.
  pose proof (occur_same_calls o p) as (_ & -> & _).
  destruct o; simpl; lia.
Qed.

Lemma allocated_proceed os p :
  (allocated (world p) ≤ allocated (world (proceed os p).2))%N.
Proof.
  revert p. induction os as [|o os IH]; intros p; [done|].
  simpl. pose proof (allocated_occur o p) as Hs.
  destruct (occur o p) as [[[]|e] p1]; simpl in *; [|done].
  etrans; [exact Hs | apply IH].
Qed.

(** The drain reaches the Calls of the table, not the Call that the
    callback of [readBytes] holds. *)
Lemma cleanupCalls_accounted err w a :
  accounted (mkProcess w a) → accounted (mkProcess (_cleanupCalls err w) a).
Proof.
  intros Hacc l c' Hl Hd. simpl in *.
  destruct (cleanupCalls_cases err w l c' Hl) as (c & Hc & [[-> _]|[-> Hno]]).
  - unfold Call.setException in Hd. by rewrite callComplete_is_done in Hd.
  - destruct (Hacc l c Hc Hd) as [Hin|Haw]; [|by right].
    by destruct (Hno _ Hin).
Qed.

Lemma registered_accounted method params timeout now w a :
  ids_in_order w → Z.of_N (allocated w) ≤ 2 ^ 53 →
  accounted (mkProcess w a) →
  accounted (mkProcess (registered method params timeout now w) a).
Proof.
  intros (Hcnt & _ & Hid) Hb Hacc l c. unfold registered. simpl.
  destruct (decide (l = allocated w)) as [->|Hne].
  - rewrite lookup_insert_eq. intros [= <-] _. simpl. left.
    apply lookup_insert_eq.
  - rewrite lookup_insert_ne by done. intros Hc Hd.
    destruct (Hid l c Hc) as [Hlt Hidc].
    destruct (Hacc l c Hc Hd) as [Hin|Haw]; [left|by right].
    rewrite lookup_insert_ne by lia. done.
Qed.

Lemma occur_accounted o p p' :
  ids_in_order (world p) → Z.of_N (allocated (world p)) ≤ 2 ^ 53 →
  accounted p → occur o p = (Ok tt, p') → accounted p'.
Proof.
  intros Hids Hb Hacc. destruct p as [w a]. simpl in *.
  unfold accounted in Hacc. simpl in Hacc.
  destruct o as [method params timeout now|err data|buf|ref| |msg];
    unfold occur, in_process; simpl.
  - unfold modify. intros [= <-].
    pose proof (registered_accounted method params timeout now w a Hids Hb Hacc)
      as Hreg.
    rewrite call_unfold. destruct (closed w); [|done].
    unfold _handleClose, emit.
    assert (Hreg' : accounted
                      (mkProcess
                         (set_closed true (registered method params timeout now w))
                         a)) by exact Hreg.
    apply cleanupCalls_accounted with (err := ConnectionClosedException
      (closed_message (address (set_closed true
         (registered method params timeout now w))))) in Hreg'.
    intros l c Hc Hd. exact (Hreg' l c Hc Hd).
  - destruct a as [a|]; [by intros [= <-]|].
    unfold mbind, M_bind, bind, modify. simpl.
    destruct (on_prefix _ _ _) as [[r|e] w'] eqn:Hrun; [|done].
    intros [= <-].
    apply on_prefix_ok in Hrun as (d & -> & Hc & _ & Hcases). simpl in *.
    intros l c' Hl Hd. simpl in *.
    destruct Hcases as [(-> & Ho & _)|(-> & ref & f & Hid & Hf & Ho)].
    + rewrite Ho in Hl. destruct (Hacc l c' Hl Hd) as [Hin|(? & ? & _)]; [|done].
      destruct (decide (Call.id c' = prefix_id d)) as [Heq|Hne].
      * right. eexists. split; [done|]. simpl. by rewrite <- Heq.
      * left. rewrite Hc. by rewrite lookup_delete_ne.
    + rewrite Ho, lookup_alter in Hl. case_decide as Hlr.
      * subst l. destruct (objects w !! ref); simpl in Hl; [|done].
        injection Hl as <-. by rewrite Hf in Hd.
      * destruct (Hacc l c' Hl Hd) as [Hin|(? & ? & _)]; [|done].
        left. rewrite Hc, lookup_delete_ne; [done|].
        intros Heq. rewrite <- Heq in Hin. congruence.
  - destruct a as [a|]; [|by intros [= <-]].
    destruct (on_payload a buf w) as [[[]|e] w'] eqn:Hrun; [|done].
    intros [= <-].
    apply on_payload_ok in Hrun as (ref & f & Ha & Hf & Ho & Hc & _).
    intros l c' Hl Hd. simpl in *. left.
    rewrite Ho, lookup_alter in Hl. case_decide as Hlr.
    + subst l. destruct (objects w !! ref); simpl in Hl; [|done].
      injection Hl as <-. by rewrite Hf in Hd.
    + destruct (Hacc l c' Hl Hd) as [Hin|(a' & [= <-] & Hal)];
        [by rewrite Hc | congruence].
  - unfold modify. intros [= <-] l c'. simpl. rewrite lookup_alter.
    case_decide as Hl.
    + subst l. destruct (objects w !! ref) as [c|] eqn:Hc; simpl; [|done].
      intros [= <-] Hd. pose proof (fire_not_done c Hd) as Hfire.
      rewrite Hfire in Hd |- *. by apply (Hacc ref c).
    + apply (Hacc l c').
  - unfold modify. intros [= <-]. unfold _handleClose, emit.
    assert (Hacc' : accounted (mkProcess (set_closed true w) a)) by exact Hacc.
    apply cleanupCalls_accounted with (err := ConnectionClosedException
      (closed_message (address (set_closed true w)))) in Hacc'.
    intros l c Hc Hd. exact (Hacc' l c Hc Hd).
  - unfold modify. intros [= <-]. unfold _handleError.
    by apply cleanupCalls_accounted.
Qed.

Lemma proceed_accounted os p p' :
  ids_in_order (world p) → accounted p →
  proceed os p = (Ok tt, p') → Z.of_N (allocated (world p')) ≤ 2 ^ 53 →
  accounted p'.
Proof.
  revert p. induction os as [|o os IH]; intros p Hids Hacc.
  - by intros [= <-].
  - simpl. destruct (occur o p) as [[[]|e] p1] eqn:Hst; [|done].
    intros Hrun Hb.
    assert (Hp1 : p1 = (occur o p).2) by by rewrite Hst.
    assert (Hb1 : Z.of_N (allocated (world p1)) ≤ 2 ^ 53).
    { pose proof (allocated_proceed os p1) as Hm. rewrite Hrun in Hm.
      simpl in Hm. lia. }
    apply (IH p1); [| |done|done].
    + rewrite Hp1. by apply occur_ids_in_order.
    + apply (occur_accounted o p p1); [done| |done|done].
      pose proof (allocated_occur o p) as Hm. rewrite <- Hp1 in Hm. lia.
Qed.

(** X15. With the two reads of a response apart, so that the other
    handlers may run between the callback of [readFields] and the
    callback of [readBytes]: along any run of a fresh process in which
    no exception escapes a handler and at most [2^53] Calls are
    created, every Call that is not done yet is in the table under its
    identity, or is the one Call whose payload the dispatch loop is
    reading; when no payload is being read, every outstanding Call is
    in the table. *)
Theorem outstanding_calls_are_in_the_table_or_awaited
    (remoteId : RemoteId) (os : list Occurrence) (p : Process) :
  proceed os (mkProcess (Connection remoteId) None) = (Ok tt, p) →
  Z.of_N (allocated (world p)) ≤ 2 ^ 53 →
  ∀ l c, objects (world p) !! l = Some c → Call.done c = false →
         (calls (world p) !! Call.id c = Some l
          ∨ ∃ a, awaiting p = Some a ∧ awaited_call a = Some l)
         ∧ (awaiting p = None → calls (world p) !! Call.id c = Some l).
Proof.
  intros Hrun Hb l c Hc Hd.
  assert (Hacc : accounted p).
  { apply (proceed_accounted os (mkProcess (Connection remoteId) None));
      [apply Connection_ids_in_order | | done | done].
    intros l' c'. simpl. by rewrite lookup_empty. }
  destruct (Hacc l c Hc Hd) as [Hin|(a & Ha & Hl)].
  - split; [by left | done].
  - split; [right; by exists a | by rewrite Ha].
Qed.

(** X21. The Call whose payload is being read is out of the reach of a
    drain. For a response with the has-declared-length bit whose Call
    is outstanding in the table, a socket 'close' that arrives after
    the prefix and before the payload finds the table without that
    Call: the Connection is closed and its table empty, but the Call
    is left as it was, not done and not notified, held only by the
    callback of [readBytes] (and by its timer, if it has one). *)
Theorem close_between_prefix_and_payload_skips_the_call
    (d : Prefix) (w : World) (ref : N) (c : Call.t) :
  ResponseFlag_isLength (prefix_flag d) = true →
  calls w !! prefix_id d = Some ref →
  (∀ id, calls w !! id = Some ref → id = prefix_id d) →
  objects w !! ref = Some c →
  Call.done c = false →
  Call.wf c →
  ∃ p,
    proceed [PrefixRead None (Some d); SocketClosed] (mkProcess w None)
    = (Ok tt, p)
    ∧ objects (world p) !! ref = Some c
    ∧ Call.emitted c = []
    ∧ calls (world p) = ∅
    ∧ closed (world p) = true
    ∧ awaiting p
      = Some (mkAwaited (Some ref) (ResponseFlag_isError (prefix_flag d))).
Proof.
  intros Hlen Hid Hinj Href Hd Hwf.
  unfold Call.wf in Hwf. rewrite Hd in Hwf. destruct Hwf as (_ & _ & Hem).
  eexists. simpl. unfold on_prefix. run_handler. rewrite Hid, Hlen. simpl.
  unfold in_process. simpl. split; [reflexivity|]. simpl.
  unfold _handleClose, emit. simpl.
  split_and!; try done.
  - rewrite cleanupCalls_miss; [done|]. simpl. intros id Hin.
    destruct (decide (id = prefix_id d)) as [->|Hne].
    + by rewrite lookup_delete_eq in Hin.
    + rewrite lookup_delete_ne in Hin by done. by apply Hne, Hinj.
  - apply cleanupCalls_calls.
  - by rewrite cleanupCalls_only_objects.
Qed.

(** X16. When every outstanding Call is in the table, a socket 'close'
    or 'error' leaves no Call outstanding: every Call object is done
    and its timer is disarmed, and for the Calls that were outstanding
    the notification is that of the drain. *)
Theorem drain_leaves_no_call_outstanding (f : SocketFailure) (w : World) :
  tracked w →
  calls_wf w →
  timers_ok w →
  ∀ l c', objects (handle f w) !! l = Some c' →
    Call.done c' = true
    ∧ Call.timer_active c' = false
    ∧ ∃ c, objects w !! l = Some c
           ∧ (Call.done c = false →
              Call.emitted c' = [(Some (failure_error f w), None)])
           ∧ (Call.done c = true → Call.emitted c' = Call.emitted c).
Proof.
  intros Htr Hwf Hti l c'. rewrite objects_handle. intros Hl.
  assert (Htr' : tracked (before_cleanup f w)) by by destruct f.
  assert (Ho : objects (before_cleanup f w) = objects w) by by destruct f.
  pose proof (cleanupCalls_all_done _ _ _ _ Htr' Hl) as Hdone.
  destruct (cleanupCalls_cases _ _ _ _ Hl) as (c & Hc & Hcases).
  rewrite Ho in Hc.
  split; [done|]. split.
  - destruct Hcases as [[-> _]|[-> _]]; [apply callComplete_inactive|].
    by eapply Hti.
  - exists c. split; [done|]. split.
    + intros Hd. destruct Hcases as [[-> _]|[-> _]]; [|congruence].
      by destruct (setException_outstanding (failure_error f w) c Hd
                     (Hwf l c Hc)) as (? & _).
    + intros Hd. destruct Hcases as [[-> _]|[-> _]]; [|done].
      by apply (complete_done_emitted (Call.Failure _)).
Qed.

End TableFacts.

(** ** What later events leave of a Call *)

Section Stability.

Context `{codec : Codec}.

Implicit Types (w : World) (ref l : N) (c : Call.t) (ev : Event).

Lemma method_step_stable c c' :
  method_step c c' →
  Call.id c' = Call.id c
  ∧ Call.param c' = Call.param c
  ∧ Call.startTime c' = Call.startTime c
  ∧ Call.timeout c' = Call.timeout c
  ∧ (Call.done c = true →
     Call.done c' = true ∧ Call.emitted c' = Call.emitted c).
Proof.
  intros [v c0|e c0 _|c0].
  - destruct c0 as [? ? ? ? [] ? ? ? ?]; simpl; split_and!; done.
  - destruct c0 as [? ? ? ? [] ? ? ? ?]; simpl; split_and!; done.
  - destruct c0 as [? ? ? ? [] ? ? [[]|] ?]; simpl; split_and!; done.
Qed.

Lemma method_steps_stable c c' :
  rtc method_step c c' →
  Call.id c' = Call.id c
  ∧ Call.param c' = Call.param c
  ∧ Call.startTime c' = Call.startTime c
  ∧ Call.timeout c' = Call.timeout c
  ∧ (Call.done c = true →
     Call.done c' = true ∧ Call.emitted c' = Call.emitted c).
Proof.
  induction 1 as [|c c1 c2 Hs _ IH]; [done|].
  destruct (method_step_stable c c1 Hs) as (Hi & Hp & Hst & Ht & Hd).
  destruct IH as (-> & -> & -> & -> & Hd'). split_and!; try done.
  intros Hdone. destruct (Hd Hdone) as [Hd1 <-]. by apply Hd'.
Qed.

(** X17. A Call object outlives every later event: whatever run
    follows, the object is still there with the same identity,
    invocation, timeout and start time ([getStartTime] keeps its
    answer); and once the Call is done, it stays done and what its
    listeners have received is final. *)
Theorem call_object_is_stable (evs : list Event) (w : World) (l : N) (c : Call.t) :
  objects w !! l = Some c →
  (l < allocated w)%N →
  ∃ c', objects (after evs w) !! l = Some c'
        ∧ Call.id c' = Call.id c
        ∧ Call.param c' = Call.param c
        ∧ Call.timeout c' = Call.timeout c
        ∧ Call.getStartTime c' = Call.getStartTime c
        ∧ (Call.done c = true →
           Call.done c' = true ∧ Call.emitted c' = Call.emitted c).
Proof.
  intros Hc Hl.
  pose proof (after_invariant
                (fun w' => (l < allocated w')%N
                           ∧ ∃ c', objects w' !! l = Some c'
                                   ∧ rtc method_step c c')) as Hinv.
  destruct (Hinv) with (evs := evs) (w := w) as (_ & c' & Hc' & Hsteps).
  - intros ev w0 (Hl0 & c0 & Hc0 & Hs0).
    pose proof (step_same_calls ev w0) as (_ & Ha & Ho).
    assert (Hen : (l < allocated (entered ev w0))%N
                  ∧ objects (entered ev w0) !! l = Some c0).
    { destruct ev; try done. unfold registered. simpl.
      split; [lia|]. by rewrite lookup_insert_ne by lia. }
    destruct Hen as [Hlt Hobj]. unfold entered in *.
    rewrite Ha. split; [done|].
    specialize (Ho l). rewrite Hobj in Ho.
    inversion Ho as [? c1 Hs1 Hx Hy|]; subst.
    exists c1. split; [done|]. by etrans.
  - split; [done|]. by exists c.
  - exists c'. split; [done|]. unfold Call.getStartTime.
    destruct (method_steps_stable c c' Hsteps) as (? & ? & ? & ? & ?). done.
Qed.

(** X18. Responses, timers and socket events create no Call and take
    no identity; [call] creates exactly one Call and advances the
    counter once, on an open and on a closed Connection alike. *)
Theorem only_call_creates_calls (ev : Event) (w : World) :
  let w' := (step ev w).2 in
  match ev with
  | Invoke _ _ _ _ =>
      allocated w' = N.succ (allocated w)
      ∧ Call_Counter w' = js_succ (Call_Counter w)
      ∧ is_Some (objects w' !! allocated w)
  | _ =>
      allocated w' = allocated w
      ∧ Call_Counter w' = Call_Counter w
      ∧ (∀ l, is_Some (objects w' !! l) ↔ is_Some (objects w !! l))
  end.
Proof.
  intros w'. pose proof (step_same_calls ev w) as (Hc & Ha & Ho).
  assert (Hdom : ∀ l, is_Some (objects w' !! l)
                      ↔ is_Some (objects (entered ev w) !! l)).
  { intros l. specialize (Ho l). unfold entered.
    inversion Ho as [? ? ? Hx Hy|Hx Hy]; subst; unfold w'.
    - rewrite <- Hy. split; intros _; by eexists.
    - rewrite <- Hy. done. }
  destruct ev; try done.
  split_and!; [done | done |]. apply Hdom. unfold entered, registered. simpl.
  rewrite lookup_insert_eq. by eexists.
Qed.

(** X19. The usual end of a socket: 'error', then 'close'. A Call that
    was outstanding in the table is notified once, with the error of
    the socket and not with the connection-closed error; afterwards
    the closed flag is set, the table is empty and the Connection has
    emitted 'close' once. *)
Theorem error_then_close (msg : string) (w : World) (id : Z) (ref : N) (c : Call.t) :
  calls w !! id = Some ref →
  objects w !! ref = Some c →
  Call.done c = false →
  Call.wf c →
  ∃ w' c',
    run [SocketError msg; SocketClose] w = (Ok tt, w')
    ∧ objects w' !! ref = Some c'
    ∧ Call.emitted c' = [(Some (TransportError msg), None)]
    ∧ Call.done c' = true
    ∧ closed w' = true
    ∧ calls w' = ∅
    ∧ events w' = events w ++ ["close"].
Proof.
  intros Hid Href Hd Hwf.
  destruct (cleanupCalls_outstanding (TransportError msg) w id ref c)
    as (c' & Hc' & _ & _ & He & Hd' & _); try done.
  exists (_handleClose (_handleError (TransportError msg) w)), c'.
  split; [reflexivity|].
  unfold _handleClose, _handleError, emit. simpl.
  rewrite (cleanupCalls_empty _ (set_closed true _))
    by (simpl; apply cleanupCalls_calls).
  simpl. split_and!; try done.
  - apply cleanupCalls_calls.
  - by rewrite cleanupCalls_only_objects.
Qed.

End Stability.

(** ** The further properties on concrete states *)

(** X1, on the success frame for the call 0 of [sample_world] whose
    payload decodes to "pong". *)
Lemma success_response_delivers_value_witness :
  ∃ w' c',
    on_response (codec := sample_codec) None (Some (mkPrefix 0 2 18))
      [0; 0; 0; 0; 4; 112; 111; 110; 103] sample_world = (Ok tt, w')
    ∧ objects w' !! 0%N = Some c'
    ∧ Call.emitted c' = [(None, Some (VString "pong"))]
    ∧ calls w' !! 0 = None.
Proof.
  destruct (success_response_delivers_value (codec := sample_codec)
              (mkPrefix 0 2 18) [0; 0; 0; 0; 4; 112; 111; 110; 103]
              sample_world 0%N
              (Call.create 0 (mkInvocation "echo" []) 5000 0)
              0 [4; 112; 111; 110; 103] [] (VString "pong")
              eq_refl eq_refl eq_refl eq_refl eq_refl
              (create_wf _ _ _ _) eq_refl eq_refl)
    as (w' & c' & Hrun & Hc' & He & _ & _ & _ & _ & _ & Hcalls & _).
  exists w', c'. split_and!; [exact Hrun | exact Hc' | exact He |].
  rewrite Hcalls. apply lookup_delete_eq.
Defined.

(** X2, on a frame for the call 0 whose flag byte is 0. *)
Lemma missing_length_flag_fails_call_and_ends_socket_witness :
  ∃ w' c',
    on_response (codec := sample_codec) None (Some (mkPrefix 0 0 9)) []
      sample_world = (Ok tt, w')
    ∧ objects w' !! 0%N = Some c'
    ∧ Call.emitted c'
      = [(Some (RemoteException "RemoteException"
                  "missing data length packet, flag: 0"), None)]
    ∧ ended w' = true
    ∧ closed w' = false.
Proof.
  destruct (missing_length_flag_fails_call_and_ends_socket
              (codec := sample_codec) (mkPrefix 0 0 9) [] sample_world 0%N
              (Call.create 0 (mkInvocation "echo" []) 5000 0)
              eq_refl eq_refl eq_refl eq_refl (create_wf _ _ _ _))
    as (w' & c' & Hrun & Hc' & He & _ & _ & _ & Hen & Hcl & _).
  exists w', c'. split_and!; [exact Hrun | exact Hc' | exact He | exact Hen
                             | exact Hcl].
Defined.

(** X3, on a read error reported with the prefix of the call 1. *)
Lemma prefix_read_error_fails_call_and_ends_socket_witness :
  ∃ w' c',
    on_response (codec := sample_codec) (Some (TransportError "read EPIPE"))
      (Some (mkPrefix 1 2 9)) [] sample_world = (Ok tt, w')
    ∧ objects w' !! 1%N = Some c'
    ∧ Call.emitted c' = [(Some (TransportError "read EPIPE"), None)]
    ∧ ended w' = true.
Proof.
  destruct (prefix_read_error_fails_call_and_ends_socket
              (codec := sample_codec) (TransportError "read EPIPE")
              (mkPrefix 1 2 9) [] sample_world 1%N
              (Call.create 1 (mkInvocation "get" [VString "row"]) 10000 1)
              eq_refl eq_refl eq_refl (create_wf _ _ _ _))
    as (w' & c' & Hrun & Hc' & He & _ & _ & _ & Hen & _).
  exists w', c'. split_and!; [exact Hrun | exact Hc' | exact He | exact Hen].
Defined.

(** X4, on the two calls of [sample_world], answered "b" and "a". *)
Lemma responses_in_either_order_witness :
  let r0 := on_response (codec := sample_codec) None (Some (mkPrefix 0 2 15))
              [0; 0; 0; 0; 1; 97] in
  let r1 := on_response (codec := sample_codec) None (Some (mkPrefix 1 2 15))
              [0; 0; 0; 0; 1; 98] in
  ∃ w', (r1;; r0) sample_world = (Ok tt, w')
        ∧ (r0;; r1) sample_world = (Ok tt, w')
        ∧ (Call.value <$> objects w' !! 0%N) = Some (Some (VString "a"))
        ∧ (Call.value <$> objects w' !! 1%N) = Some (Some (VString "b")).
Proof.
  intros r0 r1.
  destruct (responses_in_either_order (codec := sample_codec)
              (mkPrefix 1 2 15) (mkPrefix 0 2 15)
              [0; 0; 0; 0; 1; 98] [0; 0; 0; 0; 1; 97] sample_world 1%N 0%N
              (Call.create 1 (mkInvocation "get" [VString "row"]) 10000 1)
              (Call.create 0 (mkInvocation "echo" []) 5000 0)
              0 0 [1; 98] [] [1; 97] [] (VString "b") (VString "a"))
    as (w' & H10 & H01 & Ho1 & Ho0 & _);
    try reflexivity; try discriminate.
  exists w'. split_and!; [exact H10 | exact H01 | |].
  - rewrite Ho0. reflexivity.
  - rewrite Ho1. reflexivity.
Defined.

(** X5, on a first call on a fresh connection. *)
Lemma call_registers_and_sends_witness :
  let w := Connection sample_remote in
  let w' := call (codec := sample_codec) "echo" [] (Some 5000) 0 w in
  closed w = false
  ∧ calls w' !! 0 = Some 0%N
  ∧ written w' = [0; 0; 0; 13; 0; 0; 0; 0; 4; 101; 99; 104; 111; 0; 0; 0; 0].
Proof.
  intros w w'.
  destruct (call_registers_and_sends (codec := sample_codec)
              "echo" [] (Some 5000) 0 w eq_refl)
    as (Hc & _ & _ & _ & _ & _ & Hw & _).
  split; [reflexivity|]. split; [exact Hc|].
  etrans; [exact Hw | reflexivity].
Defined.

(** X6, on the second call of [sample_world]. *)
Lemma request_frame_id_round_trip_witness :
  ∃ l3 l2 l1 l0 i3 i2 i1 i0,
    written (sendParam (codec := sample_codec) 1%N
               (set_written [] sample_world))
    = [l3; l2; l1; l0] ++ [i3; i2; i1; i0]
      ++ [3; 103; 101; 116; 0; 0; 0; 1; 1; 3; 114; 111; 119]
    ∧ int_of_bytes i3 i2 i1 i0 = 1.
Proof.
  assert (Hr : - 2 ^ 31 ≤ 1 < 2 ^ 31) by lia.
  destruct (request_frame_id_round_trip (codec := sample_codec) 1%N
              (Call.create 1 (mkInvocation "get" [VString "row"]) 10000 1)
              (set_written [] sample_world) eq_refl Hr)
    as (l3 & l2 & l1 & l0 & i3 & i2 & i1 & i0 & Hw & Hid).
  exists l3, l2, l1, l0, i3, i2, i1, i0. split; [exact Hw | exact Hid].
Defined.

(** X7, on a connection that a socket 'close' has closed. *)
Lemma call_on_closed_connection_emits_close_witness :
  let w := _handleClose sample_world in
  closed w = true
  ∧ events (call (codec := sample_codec) "get" [] None 9 w) = ["close"; "close"].
Proof.
  intros w.
  destruct (call_on_closed_connection_emits_close (codec := sample_codec)
              "get" [] None 9 w eq_refl) as (He & _).
  split; [reflexivity|]. rewrite He. reflexivity.
Defined.

(** X8, on the timer of the call 0 of [sample_world]. *)
Lemma timer_completes_call_with_deadline_error_witness :
  ∃ w' c',
    step (codec := sample_codec) (TimerFires 0%N) sample_world = (Ok tt, w')
    ∧ objects w' !! 0%N = Some c'
    ∧ Call.emitted c'
      = [(Some (RemoteCallTimeoutException "5000 ms timeout"), None)]
    ∧ calls w' !! 0 = Some 0%N.
Proof.
  destruct (timer_completes_call_with_deadline_error (codec := sample_codec)
              0%N (Call.create 0 (mkInvocation "echo" []) 5000 0) sample_world
              eq_refl eq_refl eq_refl (create_wf _ _ _ _))
    as (w' & c' & Hrun & Hc' & He & _ & _ & _ & _ & _ & Hcalls & _).
  exists w', c'. split_and!; [exact Hrun | exact Hc' | exact He |].
  rewrite Hcalls. reflexivity.
Defined.

(** X9, on a fresh connection with the default timeout. *)
Lemma get_and_put_use_the_default_timeout_witness :
  let w := Connection sample_remote in
  closed w = false
  ∧ ∃ c, objects (get (codec := sample_codec) (VString "region")
                    (VString "row") 3 w) !! 0%N = Some c
         ∧ Call.timeout c = 10000.
Proof.
  intros w.
  destruct (get_and_put_use_the_default_timeout (codec := sample_codec)
              (VString "region") (VString "row") 3 w eq_refl)
    as [(c & Hc & Ht & _) _].
  split; [reflexivity|]. exists c. split; [exact Hc | exact Ht].
Defined.

(** X10, on the header of a Connection whose remote names no protocol. *)
Lemma handshake_layout_witness :
  let h := Connection_header None "HRegionInterface" None in
  written (on_connect sample_writeString h (Connection sample_remote))
  = [104; 114; 112; 99; 3; 0; 0; 0; 17; 16]
    ++ bytes_of_string "HRegionInterface".
Proof.
  intros h.
  destruct (handshake_layout (codec := sample_codec) sample_writeString h
              (Connection sample_remote)) as (Hw & _).
  rewrite Hw. reflexivity.
Defined.

(** X11, on the call 0 after its response and a late timer. *)
Lemma every_call_is_notified_at_most_once_witness :
  let evs := [Invoke "echo" [] (Some 5000) 0;
              Receive None (Some (mkPrefix 0 2 18))
                [0; 0; 0; 0; 4; 112; 111; 110; 103];
              TimerFires 0%N] in
  ∃ c, objects (after (codec := sample_codec) evs (Connection sample_remote))
         !! 0%N = Some c
       ∧ Call.done c = true
       ∧ length (Call.emitted c) = 1%nat.
Proof.
  intros evs. eexists. split; [vm_compute; reflexivity|].
  destruct (every_call_is_notified_at_most_once (codec := sample_codec)
              sample_remote evs 0%N _ ltac:(vm_compute; reflexivity))
    as [(Hd & _)|(Hd & Hl & _)]; [discriminate Hd|].
  split; [exact Hd | exact Hl].
Defined.

(** X12, on a closed connection that then sees a call, a timer and a
    socket error. *)
Lemma closed_is_terminal_witness :
  let w := _handleClose sample_world in
  let evs := [Invoke "get" [] None 9; TimerFires 0%N; SocketError "EPIPE"] in
  closed w = true
  ∧ closed (after (codec := sample_codec) evs w) = true
  ∧ written (after (codec := sample_codec) evs w) = written w.
Proof.
  intros w evs.
  destruct (closed_is_terminal (codec := sample_codec) evs w eq_refl)
    as (Hc & Hw & _).
  split; [reflexivity|]. split; [exact Hc | exact Hw].
Defined.

(** X13, on a call without timeout after a call and its response, on
    the same call once the socket has closed, and on a Connection
    whose remote is configured with the timeout -5. *)
Lemma default_timeout_arms_every_call_witness :
  let evs := [Invoke "echo" [] (Some 5000) 0;
              Receive None (Some (mkPrefix 0 2 18))
                [0; 0; 0; 0; 4; 112; 111; 110; 103]] in
  let w := after (codec := sample_codec) evs (Connection sample_remote) in
  let wc := after (codec := sample_codec) (evs ++ [SocketClose])
              (Connection sample_remote) in
  let wn := after (codec := sample_codec) evs
              (Connection (mkRemoteId (mkAddress "localhost" 60020)
                             (Some (-5)))) in
  rpcTimeout w = 10000
  ∧ (∃ c, objects (call (codec := sample_codec) "get" [] None 1 w) !! 1%N
          = Some c
          ∧ Call.timeout c = 10000 ∧ Call.timer c = Some Pending)
  ∧ closed wc = true ∧ rpcTimeout wc = 10000
  ∧ (∃ c, objects (call (codec := sample_codec) "get" [] None 1 wc) !! 1%N
          = Some c ∧ Call.timeout c = 10000)
  ∧ rpcTimeout wn = -5.
Proof.
  intros evs w wc wn.
  destruct (default_timeout_arms_every_call (codec := sample_codec)
              sample_remote evs "get" [] None 1)
    as (_ & _ & _ & _ & Hdef & _ & Heff & _ & Harm).
  destruct Harm as (_ & Harm); [discriminate|].
  destruct Harm as (_ & Harm); [discriminate|].
  destruct Harm as (c & Hc & Ht & Htm & _); [vm_compute; reflexivity|].
  destruct (default_timeout_arms_every_call (codec := sample_codec)
              sample_remote (evs ++ [SocketClose]) "get" [] None 1)
    as (_ & _ & _ & _ & Hdefc & _ & Heffc & (cc & Hcc & Htc) & _).
  destruct (default_timeout_arms_every_call (codec := sample_codec)
              (mkRemoteId (mkAddress "localhost" 60020) (Some (-5)))
              evs "get" [] None 1)
    as (_ & _ & _ & Hkept & _).
  split_and!.
  - apply Hdef. by left.
  - exists c. split; [exact Hc|]. split; [|exact Htm].
    etrans; [exact Ht|]. etrans; [apply Heff; by left|]. apply Hdef. by left.
  - vm_compute. reflexivity.
  - apply Hdefc. by left.
  - exists cc. split; [exact Hcc|].
    etrans; [exact Htc|]. etrans; [apply Heffc; by left|]. apply Hdefc. by left.
  - apply (Hkept (-5)); [reflexivity | discriminate].
Defined.

(** X14, on the table after two calls and one response. *)
Lemma table_keys_are_call_ids_witness :
  let evs := [Invoke "echo" [] (Some 5000) 0;
              Invoke "get" [VString "row"] None 1;
              Receive None (Some (mkPrefix 0 2 18))
                [0; 0; 0; 0; 4; 112; 111; 110; 103]] in
  let w := after (codec := sample_codec) evs (Connection sample_remote) in
  calls w !! 1 = Some 1%N
  ∧ ∃ c, objects w !! 1%N = Some c ∧ Call.id c = 1.
Proof.
  intros evs w.
  destruct (table_keys_are_call_ids (codec := sample_codec) sample_remote evs)
    as (Hok & _).
  assert (H1 : calls w !! 1 = Some 1%N) by (vm_compute; reflexivity).
  split; [exact H1|]. exact (Hok 1 1%N H1).
Defined.

(** X15, on two calls, with the prefix of the response to the first
    read and its payload not yet. *)
Lemma outstanding_calls_are_in_the_table_or_awaited_witness :
  let os := [Calls "echo" [] (Some 5000) 0;
             Calls "get" [VString "row"] None 1;
             PrefixRead None (Some (mkPrefix 0 2 18))] in
  let r := proceed (codec := sample_codec) os
             (mkProcess (Connection sample_remote) None) in
  r.1 = Ok tt
  ∧ Z.of_N (allocated (world r.2)) ≤ 2 ^ 53
  ∧ (∃ c0, objects (world r.2) !! 0%N = Some c0 ∧ Call.done c0 = false
           ∧ calls (world r.2) !! Call.id c0 = None
           ∧ ∃ a, awaiting r.2 = Some a ∧ awaited_call a = Some 0%N)
  ∧ (∃ c1, objects (world r.2) !! 1%N = Some c1 ∧ Call.done c1 = false
           ∧ calls (world r.2) !! Call.id c1 = Some 1%N).
Proof.
  intros os r.
  assert (Hrun : r = (Ok tt, r.2)) by (vm_compute; reflexivity).
  assert (Hb : Z.of_N (allocated (world r.2)) ≤ 2 ^ 53)
    by (vm_compute; discriminate).
  pose proof (outstanding_calls_are_in_the_table_or_awaited
                (codec := sample_codec) sample_remote os r.2 Hrun Hb) as Hacc.
  split; [vm_compute; reflexivity|]. split; [exact Hb|]. split.
  - eexists. split; [vm_compute; reflexivity|]. split; [reflexivity|].
    split; [vm_compute; reflexivity|].
    destruct (Hacc 0%N _ ltac:(vm_compute; reflexivity) eq_refl)
      as [[Hin|Haw] _]; [|exact Haw].
    vm_compute in Hin. discriminate Hin.
  - eexists. split; [vm_compute; reflexivity|]. split; [reflexivity|].
    destruct (Hacc 1%N _ ltac:(vm_compute; reflexivity) eq_refl)
      as [[Hin|(a & Ha & Hl)] _]; [exact Hin|].
    vm_compute in Ha. injection Ha as <-. discriminate Hl.
Defined.

(** X21, on the call 0 of [sample_world]. *)
Lemma close_between_prefix_and_payload_skips_the_call_witness :
  ∃ p,
    proceed (codec := sample_codec)
      [PrefixRead None (Some (mkPrefix 0 2 18)); SocketClosed]
      (mkProcess sample_world None) = (Ok tt, p)
    ∧ objects (world p) !! 0%N
      = Some (Call.create 0 (mkInvocation "echo" []) 5000 0)
    ∧ closed (world p) = true
    ∧ calls (world p) = ∅.
Proof.
  destruct (close_between_prefix_and_payload_skips_the_call
              (codec := sample_codec) (mkPrefix 0 2 18) sample_world 0%N
              (Call.create 0 (mkInvocation "echo" []) 5000 0)
              eq_refl eq_refl)
    as (p & Hrun & Hc & _ & Hcalls & Hcl & _);
    [| reflexivity | reflexivity | apply create_wf |].
  - intros id Hin.
    destruct (decide (id = 0)) as [->|Hne]; [done|].
    destruct (decide (id = 1)) as [->|Hne1]; [discriminate Hin|].
    exfalso. revert Hin. unfold sample_world.
    change (calls (after [Invoke "echo" [] (Some 5000) 0;
                          Invoke "get" [VString "row"] None 1]
                     (Connection sample_remote)))
      with (<[1 := 1%N]> (<[0 := 0%N]> (∅ : gmap Z N))).
    rewrite !lookup_insert_ne by done. by rewrite lookup_empty.
  - exists p. split_and!; [exact Hrun | exact Hc | exact Hcl | exact Hcalls].
Defined.

(** X16, on a socket error with one call outstanding. *)
Lemma drain_leaves_no_call_outstanding_witness :
  let w := registered "echo" [] (Some 5000) 0 (Connection sample_remote) in
  let w' := handle (OnError (TransportError "read ECONNRESET")) w in
  tracked w
  ∧ ∀ l c', objects w' !! l = Some c' → Call.done c' = true.
Proof.
  intros w w'.
  assert (Hobj : ∀ l c, objects w !! l = Some c →
                        l = 0%N ∧ c = Call.create 0 (mkInvocation "echo" [])
                                        5000 0).
  { intros l c. unfold w, registered. simpl. rewrite lookup_insert.
    case_decide; [by intros [= <-] | by rewrite lookup_empty]. }
  assert (Htr : tracked w).
  { intros l c Hc _. destruct (Hobj l c Hc) as [-> ->]. reflexivity. }
  assert (Hwf : calls_wf w).
  { intros l c Hc. destruct (Hobj l c Hc) as [-> ->]. apply create_wf. }
  assert (Hti : timers_ok w).
  { intros l c Hc. destruct (Hobj l c Hc) as [-> ->]. discriminate. }
  split; [exact Htr|]. intros l c' Hc'.
  exact (proj1 (drain_leaves_no_call_outstanding
                  (OnError (TransportError "read ECONNRESET")) w
                  Htr Hwf Hti l c' Hc')).
Defined.

(** X17, on the call 0 of [sample_world], followed by its timer and a
    socket 'close'. *)
Lemma call_object_is_stable_witness :
  ∃ c', objects (after (codec := sample_codec) [TimerFires 0%N; SocketClose]
                   sample_world) !! 0%N = Some c'
        ∧ Call.id c' = 0
        ∧ Call.getStartTime c' = 0.
Proof.
  destruct (call_object_is_stable (codec := sample_codec)
              [TimerFires 0%N; SocketClose] sample_world 0%N
              (Call.create 0 (mkInvocation "echo" []) 5000 0)
              eq_refl eq_refl)
    as (c' & Hc' & Hid & _ & _ & Hst & _).
  exists c'. split_and!; [exact Hc' | exact Hid | exact Hst].
Defined.

(** X19, on the call 0 of [sample_world]. *)
Lemma error_then_close_witness :
  ∃ w' c',
    run (codec := sample_codec) [SocketError "read ECONNRESET"; SocketClose]
      sample_world = (Ok tt, w')
    ∧ objects w' !! 0%N = Some c'
    ∧ Call.emitted c' = [(Some (TransportError "read ECONNRESET"), None)]
    ∧ closed w' = true.
Proof.
  destruct (error_then_close (codec := sample_codec) "read ECONNRESET"
              sample_world 0 0%N
              (Call.create 0 (mkInvocation "echo" []) 5000 0)
              eq_refl eq_refl eq_refl (create_wf _ _ _ _))
    as (w' & c' & Hrun & Hc' & He & _ & Hcl & _).
  exists w', c'. split_and!; [exact Hrun | exact Hc' | exact He | exact Hcl].
Defined.

(** X20, on the call 0 of [sample_world] once its timer has fired. *)
Lemma late_response_for_done_call_witness :
  let w := on_call 0%N Call.fire sample_world in
  ∃ w' c',
    on_response (codec := sample_codec) None (Some (mkPrefix 0 2 18))
      [0; 0; 0; 0; 4; 112; 111; 110; 103] w = (Ok tt, w')
    ∧ objects w' !! 0%N = Some c'
    ∧ Call.emitted c'
      = [(Some (RemoteCallTimeoutException "5000 ms timeout"), None)]
    ∧ Call.value c' = Some (VString "pong").
Proof.
  intros w.
  destruct (late_response_for_done_call (codec := sample_codec)
              (mkPrefix 0 2 18) [0; 0; 0; 0; 4; 112; 111; 110; 103] w 0%N
              (Call.fire (Call.create 0 (mkInvocation "echo" []) 5000 0))
              0 [4; 112; 111; 110; 103] [] (VString "pong")
              eq_refl eq_refl eq_refl eq_refl eq_refl eq_refl eq_refl)
    as (w' & c' & Hrun & Hc' & He & Hv & _).
  exists w', c'. split_and!; [exact Hrun | exact Hc' | | exact Hv].
  rewrite He. reflexivity.
Defined.
